(** * Byte-order primitives of base/numerics/basic_ops_impl.h

    A shallow embedding of [cxx17_is_constant_evaluated], [MathType],
    [SwapBytes], [FromLittleEndian] and [ToLittleEndian], followed by the
    properties the specification states about them.

    Integer values are mathematical integers ([Z]); every conversion to a
    fixed-width C++ type is written out as a reduction modulo the width of
    that type.  Bytes are integers in [0, 256) and byte arrays are lists.
    Every shift that the C++ code evaluates is recorded in a trace, so that
    the bound on shift amounts can be stated about the same definitions that
    compute the results. *)

From Stdlib Require Import ZArith List Lia Bool Btauto.
From stdpp Require Import base tactics list list_numbers.
Import ListNotations.
Local Open Scope Z_scope.

(** * The platform: toolchain macros, size of [int], host byte order *)

Inductive endianness := LittleEndian | BigEndian.

Record platform := Platform {
  (** [(defined(__GNUC__) && __GNUC__ >= 9) || defined(__clang__)] *)
  gnuc9_or_clang : bool;
  (** [_MSC_VER] is defined (true for MSVC and for clang-cl) *)
  msc_ver : bool;
  (** [sizeof(int)] *)
  sizeof_int : Z;
  (** byte order of the object representation of integers in memory *)
  host_byte_order : endianness
}.

(** The context in which a call is evaluated. *)
Inductive eval_context := ConstantEvaluation | RunTime.

(** * Integer types *)

Record itype := IntType { is_signed : bool; sizeof : Z }.

Definition bit_width (T : itype) : Z := 8 * sizeof T.

(** The widths the templates accept: [sizeof(T)] is 1, 2 or 4, and the
    last [else] branch carries [static_assert(sizeof(T) == 8u)]. *)
Inductive width := W1 | W2 | W4 | W8.

Definition width_bytes (w : width) : nat :=
  match w with W1 => 1 | W2 => 2 | W4 => 4 | W8 => 8 end%nat.

Definition uint (w : width) : itype := IntType false (Z.of_nat (width_bytes w)).
Definition sint (w : width) : itype := IntType true (Z.of_nat (width_bytes w)).
Definition uint8_t : itype := uint W1.
Definition int_t (p : platform) : itype := IntType true (sizeof_int p).
Definition unsigned_int (p : platform) : itype := IntType false (sizeof_int p).

(** [x] is a value of type [T]. *)
Definition in_range (T : itype) (x : Z) : Prop :=
  if is_signed T
  then - 2 ^ (bit_width T - 1) <= x < 2 ^ (bit_width T - 1)
  else 0 <= x < 2 ^ bit_width T.

(** Conversion of an integer to type [T] ([static_cast<T>], [T(x)], and the
    implicit conversions of assignment and [return]): the unique value of
    [T] congruent to [x] modulo [2 ^ bit_width T]. *)
Definition convert (T : itype) (x : Z) : Z :=
  if is_signed T
  then (x + 2 ^ (bit_width T - 1)) mod 2 ^ bit_width T - 2 ^ (bit_width T - 1)
  else x mod 2 ^ bit_width T.

(** [MathType<T>]: [T] itself when it is at least as large as [int],
    otherwise [int] or [unsigned int] according to the signedness of [T]. *)
Definition MathType (p : platform) (T : itype) : itype :=
  if sizeof_int p <=? sizeof T then T
  else if is_signed T then int_t p else unsigned_int p.

(** The integral promotion the language applies to an operand of an
    unsigned type [T] used directly in an expression: [int] when [T] is
    smaller than [int], [T] otherwise. *)
Definition promoted (p : platform) (T : itype) : itype :=
  if sizeof T <? sizeof_int p then int_t p else T.

(** * Shift traces *)

(** One evaluated shift: the width in bits of the (converted) left operand
    and the shift amount. *)
Record shift_event := ShiftEvent { operand_bits : Z; amount : Z }.

Definition Trace (A : Type) : Type := (A * list shift_event)%type.

Definition ret {A} (a : A) : Trace A := (a, []).

Definition bind {A B} (m : Trace A) (k : A -> Trace B) : Trace B :=
  (fst (k (fst m)), snd m ++ snd (k (fst m))).

Notation "x <- m ;; k" := (bind m (fun x => k))
  (at level 100, m at next level, right associativity).

(** [x << n] on an operand of type [U]. *)
Definition shl (U : itype) (x n : Z) : Trace Z :=
  (convert U (Z.shiftl x n), [ShiftEvent (bit_width U) n]).

(** [x >> n] on an operand of type [U]. *)
Definition shr (U : itype) (x n : Z) : Trace Z :=
  (Z.shiftr x n, [ShiftEvent (bit_width U) n]).

(** [for (size_t i = ...; ...; i += 1u) body], over the indices [idx], with
    the variables the body updates as the state. *)
Fixpoint for_each {S} (idx : list nat) (body : nat -> S -> Trace S) (s : S)
  : Trace S :=
  match idx with
  | [] => ret s
  | i :: rest => s' <- body i s ;; for_each rest body s'
  end.

(** * The compile-time-context detector *)

(** Modelled from the spec: the compiler builtin
    [__builtin_is_constant_evaluated] is not part of the repository; it
    reports whether the call is evaluated as part of a constant
    expression. *)
Definition builtin_is_constant_evaluated (ctx : eval_context) : bool :=
  match ctx with ConstantEvaluation => true | RunTime => false end.

Definition cxx17_is_constant_evaluated (p : platform) (ctx : eval_context)
  : bool :=
  if gnuc9_or_clang p then builtin_is_constant_evaluated ctx
  else if msc_ver p then false
  else false.

(** * Memory and intrinsics *)

(** The object representation of a [n]-byte unsigned integer on the host:
    its base-256 digits, least significant first on a little-endian host
    and most significant first on a big-endian one. *)
Definition object_representation (e : endianness) (n : Z) (v : Z) : list Z :=
  match e with
  | LittleEndian => Z_to_little_endian n 8 v
  | BigEndian => reverse (Z_to_little_endian n 8 v)
  end.

(** The value an unsigned integer object holds when its storage holds the
    bytes [bs]. *)
Definition value_representation (e : endianness) (bs : list Z) : Z :=
  match e with
  | LittleEndian => little_endian_to_Z 8 bs
  | BigEndian => little_endian_to_Z 8 (reverse bs)
  end.

(** Modelled from the spec: the platform byte-swap intrinsics
    ([__builtin_bswap16/32/64], [_byteswap_ushort/ulong/uint64]) are not
    part of the repository; each returns its [n]-byte argument with the
    order of its bytes reversed. *)
Definition byteswap_intrinsic (n : Z) (x : Z) : Z :=
  little_endian_to_Z 8 (reverse (Z_to_little_endian n 8 x)).

Definition __builtin_bswap16 : Z -> Z := byteswap_intrinsic 2.
Definition __builtin_bswap32 : Z -> Z := byteswap_intrinsic 4.
Definition __builtin_bswap64 : Z -> Z := byteswap_intrinsic 8.
Definition _byteswap_ushort : Z -> Z := byteswap_intrinsic 2.
Definition _byteswap_ulong : Z -> Z := byteswap_intrinsic 4.
Definition _byteswap_uint64 : Z -> Z := byteswap_intrinsic 8.

(** * SwapBytes *)

(** [V x = (U(value) >> k) & U{0xff};] with the shift evaluated on an
    operand of type [U] and the result stored in a variable of type [V]. *)
Definition shift_mask (U V : itype) (value k : Z) : Trace Z :=
  s <- shr U (convert U value) k ;;
  ret (convert V (Z.land s (convert U 0xff))).

(** The branch taken when [cxx17_is_constant_evaluated()] is true. *)
Definition SwapBytes_constexpr_branch (p : platform) (w : width) (value : Z)
  : Trace Z :=
  let T := uint w in
  match w with
  | W1 => ret value
  | W2 =>
      let M := MathType p T in
      a <- shift_mask M M value 0 ;;
      b <- shift_mask M M value 8 ;;
      a8 <- shl M a 8 ;;
      b0 <- shl M b 0 ;;
      ret (convert T (Z.lor a8 b0))
  | W4 =>
      let P := promoted p T in
      a <- shift_mask P T value 0 ;;
      b <- shift_mask P T value 8 ;;
      c <- shift_mask P T value 16 ;;
      d <- shift_mask P T value 24 ;;
      a24 <- shl P (convert P a) 24 ;;
      b16 <- shl P (convert P b) 16 ;;
      c8 <- shl P (convert P c) 8 ;;
      d0 <- shl P (convert P d) 0 ;;
      ret (convert T (Z.lor (Z.lor (Z.lor a24 b16) c8) d0))
  | W8 =>
      let P := promoted p T in
      a <- shift_mask P T value 0 ;;
      b <- shift_mask P T value 8 ;;
      c <- shift_mask P T value 16 ;;
      d <- shift_mask P T value 24 ;;
      e <- shift_mask P T value 32 ;;
      f <- shift_mask P T value 40 ;;
      g <- shift_mask P T value 48 ;;
      h <- shift_mask P T value 56 ;;
      a56 <- shl P (convert P a) 56 ;;
      b48 <- shl P (convert P b) 48 ;;
      c40 <- shl P (convert P c) 40 ;;
      d32 <- shl P (convert P d) 32 ;;
      e24 <- shl P (convert P e) 24 ;;
      f16 <- shl P (convert P f) 16 ;;
      g8 <- shl P (convert P g) 8 ;;
      h0 <- shl P (convert P h) 0 ;;
      ret (convert T
             (Z.lor (Z.lor (Z.lor (Z.lor (Z.lor (Z.lor (Z.lor
                a56 b48) c40) d32) e24) f16) g8) h0))
  end.

(** The branch taken otherwise: the [#if _MSC_VER] intrinsics or the
    [__builtin_bswap] ones.  On the [_MSC_VER] toolchains
    [sizeof(unsigned short)] is 2 and [sizeof(unsigned long)] is 4.  Where
    the detector is the constant false, a constant evaluation that reaches
    an intrinsic is rejected by the compiler; the model gives such a call
    the value the intrinsic has at run time. *)
Definition SwapBytes_intrinsic_branch (p : platform) (w : width) (value : Z)
  : Trace Z :=
  let T := uint w in
  if msc_ver p then
    match w with
    | W1 => ret value
    | W2 => ret (convert T (_byteswap_ushort (convert (uint W2) value)))
    | W4 => ret (convert T (_byteswap_ulong (convert (uint W4) value)))
    | W8 => ret (convert T (_byteswap_uint64 value))
    end
  else
    match w with
    | W1 => ret value
    | W2 => ret (convert T (__builtin_bswap16 (convert (uint W2) value)))
    | W4 => ret (convert T (__builtin_bswap32 value))
    | W8 => ret (convert T (__builtin_bswap64 value))
    end.

(** [SwapBytes] on an unsigned type of width [w]. *)
Definition SwapBytes (p : platform) (ctx : eval_context) (w : width)
  (value : Z) : Trace Z :=
  if cxx17_is_constant_evaluated p ctx
  then SwapBytes_constexpr_branch p w value
  else SwapBytes_intrinsic_branch p w value.

(** [SwapBytes] on a signed type of width [w]: the value is converted to
    the unsigned type of the same width, swapped, and converted back. *)
Definition SwapBytes_signed (p : platform) (ctx : eval_context) (w : width)
  (value : Z) : Trace Z :=
  r <- SwapBytes p ctx w (convert (uint w) value) ;;
  ret (convert (sint w) r).

(** * FromLittleEndian and ToLittleEndian *)

(** [memcpy(&val, bytes.data(), sizeof(T))] followed by a read of [val]. *)
Definition memcpy_to_integer (p : platform) (bytes : list Z) : Z :=
  value_representation (host_byte_order p) bytes.

(** [memcpy(bytes.data(), &val, sizeof(T))]. *)
Definition memcpy_from_integer (p : platform) (w : width) (val : Z) : list Z :=
  object_representation (host_byte_order p) (Z.of_nat (width_bytes w)) val.

Definition FromLittleEndian_constexpr_branch (p : platform) (w : width)
  (bytes : list Z) : Trace Z :=
  let T := uint w in
  for_each (seq 0 (width_bytes w))
    (fun i val =>
       (* val |= MathType<T>(bytes[i]) << (8u * i); *)
       s <- shl (MathType p T) (convert (MathType p T) (bytes !!! i))
              (8 * Z.of_nat i) ;;
       ret (convert T (Z.lor val s)))
    (convert T 0).

Definition FromLittleEndian_memcpy_branch (p : platform) (w : width)
  (bytes : list Z) : Trace Z :=
  ret (convert (uint w) (memcpy_to_integer p bytes)).

Definition FromLittleEndian (p : platform) (ctx : eval_context) (w : width)
  (bytes : list Z) : Trace Z :=
  if cxx17_is_constant_evaluated p ctx
  then FromLittleEndian_constexpr_branch p w bytes
  else FromLittleEndian_memcpy_branch p w bytes.

Definition ToLittleEndian_constexpr_branch (p : platform) (w : width)
  (val : Z) : Trace (list Z) :=
  let T := uint w in
  st <- for_each (seq 0 (width_bytes w))
          (fun i (st : Z * list Z) =>
             let last_byte := convert uint8_t (Z.land (fst st) 0xff) in
             let bytes := <[i := last_byte]> (snd st) in
             if (1 <? sizeof T) then
               (* val >>= 8u; *)
               s <- shr (promoted p T) (convert (promoted p T) (fst st)) 8 ;;
               ret (convert T s, bytes)
             else ret (fst st, bytes))
          (val, replicate (width_bytes w) 0) ;;
  ret (snd st).

Definition ToLittleEndian_memcpy_branch (p : platform) (w : width) (val : Z)
  : Trace (list Z) :=
  ret (memcpy_from_integer p w val).

Definition ToLittleEndian (p : platform) (ctx : eval_context) (w : width)
  (val : Z) : Trace (list Z) :=
  if cxx17_is_constant_evaluated p ctx
  then ToLittleEndian_constexpr_branch p w val
  else ToLittleEndian_memcpy_branch p w val.

(** The value a call returns, and the shifts it evaluated. *)
Definition result {A} (m : Trace A) : A := fst m.
Definition shifts {A} (m : Trace A) : list shift_event := snd m.

(** A typical GCC or clang target, a big-endian one, and MSVC. *)
Definition gcc_x86_64 : platform := Platform true false 4 LittleEndian.
Definition gcc_s390x : platform := Platform true false 4 BigEndian.
Definition msvc_x64 : platform := Platform false true 4 LittleEndian.

(** * Notions the properties are stated with *)

(** [SwapBytes] as an overload set: the signed template is selected for a
    signed [T], the unsigned one otherwise. *)
Definition int_type (s : bool) (w : width) : itype :=
  IntType s (Z.of_nat (width_bytes w)).

Definition reverse_bytes (p : platform) (ctx : eval_context) (s : bool)
  (w : width) (value : Z) : Trace Z :=
  if s then SwapBytes_signed p ctx w value else SwapBytes p ctx w value.

(** A byte, as an integer. *)
Definition is_byte (b : Z) : Prop := 0 <= b < 2 ^ 8.

(** The byte at position [i]: bits [8*i .. 8*i+7] of the two's-complement
    bit pattern of [v]. *)
Definition byte_at (v : Z) (i : Z) : Z := Z.land (Z.shiftr v (8 * i)) 0xff.

(** The sum over [i < n] of [bytes[i] * 2^(8*i)]. *)
Definition little_endian_sum (n : nat) (bytes : list Z) : Z :=
  foldr Z.add 0 ((fun i => (bytes !!! i) * 2 ^ (8 * Z.of_nat i)) <$> seq 0 n).

(** The unsigned value with the two's-complement bit pattern of the signed
    [w]-byte value [v]. *)
Definition reinterpret_as_unsigned (w : width) (v : Z) : Z :=
  if v <? 0 then v + 2 ^ (8 * Z.of_nat (width_bytes w)) else v.

(** The signed value with the bit pattern of the unsigned [w]-byte value
    [u]. *)
Definition reinterpret_as_signed (w : width) (u : Z) : Z :=
  if u <? 2 ^ (8 * Z.of_nat (width_bytes w) - 1) then u
  else u - 2 ^ (8 * Z.of_nat (width_bytes w)).

(** A recorded shift is within the width of its operand. *)
Definition shift_in_bounds (e : shift_event) : Prop :=
  0 <= amount e < operand_bits e.

(** Every integer in [0, 2^n) is a value of [U]. *)
Definition wide_enough (n : Z) (U : itype) : Prop :=
  (is_signed U = false /\ n <= bit_width U) \/ n < bit_width U.

(** The byte order in which a call lays out or reads the bytes: little
    endian on the constant-evaluated branch, the host's on the other. *)
Definition effective_byte_order (p : platform) (ctx : eval_context)
  : endianness :=
  if cxx17_is_constant_evaluated p ctx then LittleEndian
  else host_byte_order p.

(** * The model on concrete inputs *)

Example SwapBytes_uint16_constant :
  result (SwapBytes gcc_x86_64 ConstantEvaluation W2 0x1234) = 0x3412.
Proof. reflexivity. Qed.

Example SwapBytes_uint16_run_time :
  result (SwapBytes gcc_x86_64 RunTime W2 0x1234) = 0x3412.
Proof. reflexivity. Qed.

Example SwapBytes_uint64_constant :
  result (SwapBytes gcc_x86_64 ConstantEvaluation W8 0x0102030405060708)
  = 0x0807060504030201.
Proof. reflexivity. Qed.

Example SwapBytes_uint64_msvc :
  result (SwapBytes msvc_x64 RunTime W8 0x0102030405060708)
  = 0x0807060504030201.
Proof. reflexivity. Qed.

Example SwapBytes_int16 :
  result (SwapBytes_signed gcc_x86_64 RunTime W2 (-2)) = -257.
Proof. reflexivity. Qed.

Example ToLittleEndian_uint64_constant :
  result (ToLittleEndian gcc_x86_64 ConstantEvaluation W8 0x0102030405060708)
  = [8; 7; 6; 5; 4; 3; 2; 1].
Proof. reflexivity. Qed.

Example ToLittleEndian_uint64_run_time :
  result (ToLittleEndian gcc_x86_64 RunTime W8 0x0102030405060708)
  = [8; 7; 6; 5; 4; 3; 2; 1].
Proof. vm_compute. reflexivity. Qed.

Example FromLittleEndian_uint32_constant :
  result (FromLittleEndian gcc_x86_64 ConstantEvaluation W4 [1; 2; 3; 4])
  = 0x04030201.
Proof. reflexivity. Qed.

Example FromLittleEndian_uint32_big_endian_host :
  result (FromLittleEndian gcc_s390x RunTime W4 [1; 2; 3; 4]) = 0x01020304.
Proof. reflexivity. Qed.

(** The sixteen shifts of the 8-byte constant-evaluated [SwapBytes]. *)
Example SwapBytes_uint64_shifts :
  map amount (shifts (SwapBytes gcc_x86_64 ConstantEvaluation W8 1))
  = [0; 8; 16; 24; 32; 40; 48; 56; 56; 48; 40; 32; 24; 16; 8; 0].
Proof. reflexivity. Qed.

(** The single shift of the 1-byte constant-evaluated [FromLittleEndian]:
    by 0, on an operand widened to [unsigned int]. *)
Example FromLittleEndian_uint8_shifts :
  shifts (FromLittleEndian gcc_x86_64 ConstantEvaluation W1 [0xab])
  = [ShiftEvent 32 0].
Proof. reflexivity. Qed.

Example ToLittleEndian_uint16_shifts :
  shifts (ToLittleEndian gcc_x86_64 ConstantEvaluation W2 0x0102)
  = [ShiftEvent 32 8; ShiftEvent 32 8].
Proof. reflexivity. Qed.

(** * Conversions that preserve the value *)

Lemma convert_small U n x :
  wide_enough n U -> 0 <= n -> 0 <= x < 2 ^ n -> convert U x = x.
Proof.
  intros HU Hn Hx. unfold convert.
  destruct HU as [[-> Hle] | Hlt].
  - apply Z.mod_small. split; [lia|].
    apply Z.lt_le_trans with (2 ^ n); [lia|].
    apply Z.pow_le_mono_r; lia.
  - assert (2 ^ n <= 2 ^ (bit_width U - 1)) by (apply Z.pow_le_mono_r; lia).
    assert (2 ^ bit_width U = 2 * 2 ^ (bit_width U - 1)) as Hpow.
    { rewrite <- Z.pow_succ_r by lia. f_equal. lia. }
    destruct (is_signed U).
    + rewrite Z.mod_small; lia.
    + rewrite Z.mod_small; lia.
Qed.

Lemma wide_enough_mono n m U : n <= m -> wide_enough m U -> wide_enough n U.
Proof. unfold wide_enough. intros ? [[? ?]|?]; [left; split; [assumption | lia] | right; lia]. Qed.

Lemma wide_enough_uint w :
  wide_enough (8 * Z.of_nat (width_bytes w)) (uint w).
Proof. left. split; [reflexivity | unfold bit_width; simpl; lia]. Qed.

Lemma wide_enough_MathType p w :
  wide_enough (8 * Z.of_nat (width_bytes w)) (MathType p (uint w)).
Proof.
  unfold MathType, wide_enough, bit_width. simpl sizeof.
  destruct (Z.leb_spec (sizeof_int p) (Z.of_nat (width_bytes w))); simpl;
    [left; split; [reflexivity | lia] | left; split; [reflexivity | lia]].
Qed.

Lemma wide_enough_promoted p w :
  wide_enough (8 * Z.of_nat (width_bytes w)) (promoted p (uint w)).
Proof.
  unfold promoted, wide_enough, bit_width. simpl sizeof.
  destruct (Z.ltb_spec (Z.of_nat (width_bytes w)) (sizeof_int p)); simpl;
    [right; lia | left; split; [reflexivity | lia]].
Qed.

Lemma in_range_uint w x :
  in_range (uint w) x <-> 0 <= x < 2 ^ (8 * Z.of_nat (width_bytes w)).
Proof. reflexivity. Qed.

(** * The trace monad *)

Lemma fst_bind {A B} (m : Trace A) (k : A -> Trace B) :
  fst (bind m k) = fst (k (fst m)).
Proof. reflexivity. Qed.

Lemma snd_bind {A B} (m : Trace A) (k : A -> Trace B) :
  snd (bind m k) = snd m ++ snd (k (fst m)).
Proof. reflexivity. Qed.

(** * Bytes of an integer *)

Lemma byte_at_is_byte v i : is_byte (byte_at v i).
Proof.
  unfold byte_at, is_byte. change 0xff with (Z.ones 8).
  rewrite Z.land_ones by lia. apply Z.mod_pos_bound. lia.
Qed.

Lemma testbit_byte_at v i j :
  0 <= i -> 0 <= j ->
  Z.testbit (byte_at v i) j = (j <? 8) && Z.testbit v (8 * i + j).
Proof.
  intros Hi Hj. unfold byte_at. change 0xff with (Z.ones 8).
  rewrite Z.land_ones, Z.testbit_mod_pow2, Z.shiftr_spec by lia.
  f_equal. f_equal. lia.
Qed.

Lemma byte_at_mod v n i :
  0 <= i < n -> byte_at (v mod 2 ^ (8 * n)) i = byte_at v i.
Proof.
  intros Hi. apply Z.bits_inj'. intros j Hj.
  rewrite !testbit_byte_at by lia.
  destruct (Z.ltb_spec j 8); [|reflexivity]. simpl.
  apply Z.mod_pow2_bits_low. lia.
Qed.

Lemma Z_to_little_endian_lookup (n : nat) v (i : nat) :
  (i < n)%nat ->
  Z_to_little_endian (Z.of_nat n) 8 v !! i = Some (byte_at v (Z.of_nat i)).
Proof.
  intros Hi. apply Z_to_little_endian_lookup_Some; [lia | lia |].
  split; [lia|]. unfold byte_at. f_equal. f_equal. lia.
Qed.

Lemma Z_to_little_endian_length (n : nat) v :
  length (Z_to_little_endian (Z.of_nat n) 8 v) = n.
Proof.
  apply Nat2Z.inj. apply length_Z_to_little_endian. lia.
Qed.

Lemma Z_to_little_endian_bytes (n : nat) v :
  Z_to_little_endian (Z.of_nat n) 8 v
  = (fun i => byte_at v (Z.of_nat i)) <$> seq 0 n.
Proof.
  apply list_eq. intros i.
  destruct (decide (i < n)%nat) as [Hi | Hi].
  - rewrite Z_to_little_endian_lookup by assumption.
    rewrite list_lookup_fmap, lookup_seq_lt by assumption. reflexivity.
  - rewrite !lookup_ge_None_2; [reflexivity | |].
    + rewrite length_fmap, length_seq. lia.
    + rewrite Z_to_little_endian_length. lia.
Qed.

Lemma byte_at_little_endian_to_Z bs (i : nat) b :
  Forall is_byte bs -> bs !! i = Some b ->
  byte_at (little_endian_to_Z 8 bs) (Z.of_nat i) = b.
Proof.
  intros Hbs Hb. apply Z.bits_inj'. intros j Hj.
  rewrite testbit_byte_at by lia.
  assert (is_byte b) as Hbb by (eapply Forall_lookup_1; eassumption).
  destruct (Z.ltb_spec j 8) as [Hlt | Hge]; simpl.
  - rewrite (little_endian_to_Z_spec 8 bs _ b); [| lia | lia | assumption |].
    + f_equal. rewrite Z.mul_comm, Z.add_comm, Z.mod_add by lia.
      apply Z.mod_small. lia.
    + rewrite Z.mul_comm, Z.add_comm, Z.div_add by lia.
      rewrite Z.div_small by lia. rewrite Z.add_0_l, Nat2Z.id. assumption.
  - symmetry. apply (Z.bounded_iff_bits_nonneg 8); unfold is_byte in Hbb; lia.
Qed.

(** Two [n]-byte values with the same bytes are equal. *)
Lemma byte_at_inj (n : nat) x y :
  0 <= x < 2 ^ (8 * Z.of_nat n) -> 0 <= y < 2 ^ (8 * Z.of_nat n) ->
  (forall i : nat, (i < n)%nat -> byte_at x (Z.of_nat i) = byte_at y (Z.of_nat i)) ->
  x = y.
Proof.
  intros Hx Hy Hbytes.
  rewrite <- (Z.mod_small x (2 ^ (Z.of_nat n * 8))), <- (Z.mod_small y (2 ^ (Z.of_nat n * 8)))
    by (rewrite Z.mul_comm; assumption).
  rewrite <- !little_endian_to_Z_to_little_endian by lia.
  f_equal. rewrite !Z_to_little_endian_bytes.
  apply list_eq. intros i. rewrite !list_lookup_fmap.
  destruct (decide (i < n)%nat) as [Hi | Hi].
  - rewrite lookup_seq_lt by assumption. simpl. f_equal. apply Hbytes, Hi.
  - rewrite lookup_seq_ge by lia. reflexivity.
Qed.

(** * The byte-swap intrinsic *)

Lemma reversed_bytes_Forall (n : nat) x :
  Forall is_byte (reverse (Z_to_little_endian (Z.of_nat n) 8 x)).
Proof.
  apply Forall_reverse. apply Z_to_little_endian_bound; lia.
Qed.

Lemma byteswap_intrinsic_bound (n : nat) x :
  0 <= byteswap_intrinsic (Z.of_nat n) x < 2 ^ (8 * Z.of_nat n).
Proof.
  unfold byteswap_intrinsic.
  pose proof (little_endian_to_Z_bound 8
                (reverse (Z_to_little_endian (Z.of_nat n) 8 x))) as Hb.
  rewrite length_reverse, Z_to_little_endian_length in Hb.
  rewrite Z.mul_comm. apply Hb; [lia|]. apply reversed_bytes_Forall.
Qed.

Lemma byte_at_byteswap_intrinsic (n : nat) x (i : nat) :
  (i < n)%nat ->
  byte_at (byteswap_intrinsic (Z.of_nat n) x) (Z.of_nat i)
  = byte_at x (Z.of_nat (n - 1 - i)).
Proof.
  intros Hi. unfold byteswap_intrinsic.
  apply byte_at_little_endian_to_Z; [apply reversed_bytes_Forall|].
  rewrite reverse_lookup by (rewrite Z_to_little_endian_length; assumption).
  rewrite Z_to_little_endian_length.
  replace (n - S i)%nat with (n - 1 - i)%nat by lia.
  apply Z_to_little_endian_lookup. lia.
Qed.

Lemma byteswap_intrinsic_involutive (n : nat) x :
  0 <= x < 2 ^ (8 * Z.of_nat n) ->
  byteswap_intrinsic (Z.of_nat n) (byteswap_intrinsic (Z.of_nat n) x) = x.
Proof.
  intros Hx. unfold byteswap_intrinsic.
  rewrite Z_to_little_endian_to_Z.
  - rewrite reverse_involutive, little_endian_to_Z_to_little_endian by lia.
    apply Z.mod_small. rewrite Z.mul_comm. assumption.
  - rewrite length_reverse, Z_to_little_endian_length. reflexivity.
  - lia.
  - apply reversed_bytes_Forall.
Qed.

Lemma byteswap_intrinsic_mod (n : nat) x :
  byteswap_intrinsic (Z.of_nat n) (x mod 2 ^ (8 * Z.of_nat n))
  = byteswap_intrinsic (Z.of_nat n) x.
Proof.
  unfold byteswap_intrinsic. f_equal. f_equal.
  rewrite !Z_to_little_endian_bytes.
  apply list_fmap_ext. intros k i Hi.
  apply lookup_seq in Hi as [-> Hi]. apply byte_at_mod. lia.
Qed.

(** * Evaluation of the shift-and-mask steps *)

Lemma shift_mask_result U V n v k :
  wide_enough n U -> wide_enough 8 V -> 8 <= n -> 0 <= v < 2 ^ n ->
  fst (shift_mask U V v k) = Z.land (Z.shiftr v k) 0xff.
Proof.
  intros HU HV Hn Hv. unfold shift_mask. rewrite fst_bind. simpl.
  rewrite (convert_small U n v) by (assumption || lia).
  rewrite (convert_small U 8 255); [| eapply wide_enough_mono; eassumption | lia | lia].
  apply (convert_small V 8); [assumption | lia |].
  change 255 with (Z.ones 8). rewrite Z.land_ones by lia.
  apply Z.mod_pos_bound. lia.
Qed.

Lemma shl_byte_result U n b k :
  wide_enough n U -> is_byte b -> 0 <= k -> k + 8 <= n ->
  fst (shl U b k) = Z.shiftl b k.
Proof.
  intros HU Hb Hk Hn. unfold shl, is_byte in *. simpl.
  apply (convert_small U n); [assumption | lia |].
  rewrite Z.shiftl_mul_pow2 by lia. split; [lia|].
  apply Z.lt_le_trans with (2 ^ 8 * 2 ^ k); [nia|].
  rewrite <- Z.pow_add_r by lia. apply Z.pow_le_mono_r; lia.
Qed.

Lemma convert_byte U n b :
  wide_enough n U -> 8 <= n -> is_byte b -> convert U b = b.
Proof.
  intros HU Hn Hb. apply (convert_small U 8); [| lia | exact Hb].
  eapply wide_enough_mono; eassumption.
Qed.

(** * Both branches of SwapBytes compute the byte reversal *)

Lemma lor_bytes_2 a b :
  Z.lor (Z.shiftl a 8) (Z.shiftl b 0) = little_endian_to_Z 8 [b; a].
Proof.
  cbn [little_endian_to_Z].
  apply Z.bits_inj'. intros m Hm.
  repeat rewrite ?Z.lor_spec, ?Z.shiftl_spec, ?Z.bits_0 by lia.
  repeat rewrite Z.sub_0_r. btauto.
Qed.

Lemma lor_bytes_4 a b c d :
  Z.lor (Z.lor (Z.lor (Z.shiftl a 24) (Z.shiftl b 16)) (Z.shiftl c 8))
    (Z.shiftl d 0)
  = little_endian_to_Z 8 [d; c; b; a].
Proof.
  cbn [little_endian_to_Z].
  rewrite !Z.shiftl_lor, !Z.shiftl_shiftl, !Z.shiftl_0_l, !Z.shiftl_0_r, !Z.lor_0_r by lia.
  change (8 + 8) with 16; change (8 + 16) with 24; change (8 + 24) with 32;
  change (8 + 32) with 40; change (8 + 40) with 48; change (8 + 48) with 56.
  apply Z.bits_inj'. intros m Hm. rewrite !Z.lor_spec. btauto.
Qed.

Lemma lor_bytes_8 a b c d e f g h :
  Z.lor (Z.lor (Z.lor (Z.lor (Z.lor (Z.lor (Z.lor
    (Z.shiftl a 56) (Z.shiftl b 48)) (Z.shiftl c 40)) (Z.shiftl d 32))
    (Z.shiftl e 24)) (Z.shiftl f 16)) (Z.shiftl g 8)) (Z.shiftl h 0)
  = little_endian_to_Z 8 [h; g; f; e; d; c; b; a].
Proof.
  cbn [little_endian_to_Z].
  rewrite !Z.shiftl_lor, !Z.shiftl_shiftl, !Z.shiftl_0_l, !Z.shiftl_0_r, !Z.lor_0_r by lia.
  change (8 + 8) with 16; change (8 + 16) with 24; change (8 + 24) with 32;
  change (8 + 32) with 40; change (8 + 40) with 48; change (8 + 48) with 56.
  apply Z.bits_inj'. intros m Hm. rewrite !Z.lor_spec. btauto.
Qed.

Lemma land_shiftr_byte_at v (i : nat) k :
  k = 8 * Z.of_nat i -> Z.land (Z.shiftr v k) 0xff = byte_at v (Z.of_nat i).
Proof. intros ->. reflexivity. Qed.

Lemma land_shiftr_is_byte v k : is_byte (Z.land (Z.shiftr v k) 0xff).
Proof.
  unfold is_byte. change 0xff with (Z.ones 8).
  rewrite Z.land_ones by lia. apply Z.mod_pos_bound. lia.
Qed.

Lemma convert_little_endian_to_Z w bs :
  length bs = width_bytes w -> Forall is_byte bs ->
  convert (uint w) (little_endian_to_Z 8 bs) = little_endian_to_Z 8 bs.
Proof.
  intros Hlen Hbs.
  apply (convert_small _ (8 * Z.of_nat (width_bytes w)));
    [apply wide_enough_uint | lia |].
  rewrite <- Hlen, Z.mul_comm. apply little_endian_to_Z_bound; [lia | assumption].
Qed.

Ltac wide_enough_tac :=
  first [ apply wide_enough_promoted | apply wide_enough_MathType
        | apply wide_enough_uint ].

Ltac eval_steps w :=
  repeat rewrite fst_bind;
  repeat first
    [ rewrite (shift_mask_result _ _ (8 * Z.of_nat (width_bytes w)))
        by first [ wide_enough_tac
                 | eapply wide_enough_mono; [| wide_enough_tac]; simpl; lia
                 | simpl; lia | assumption ]
    | match goal with
      | |- context [convert ?U (Z.land (Z.shiftr ?x ?k) 255)] =>
          rewrite (convert_byte U (8 * Z.of_nat (width_bytes w))
                     (Z.land (Z.shiftr x k) 255))
            by first [ wide_enough_tac | apply land_shiftr_is_byte | simpl; lia ]
      end
    | rewrite (shl_byte_result _ (8 * Z.of_nat (width_bytes w)))
        by first [ wide_enough_tac | apply land_shiftr_is_byte | simpl; lia ] ];
  cbn [ret fst].

Lemma SwapBytes_constexpr_branch_result p w v :
  in_range (uint w) v ->
  fst (SwapBytes_constexpr_branch p w v)
  = byteswap_intrinsic (Z.of_nat (width_bytes w)) v.
Proof.
  intros Hv. apply in_range_uint in Hv.
  unfold byteswap_intrinsic. rewrite Z_to_little_endian_bytes.
  destruct w; unfold SwapBytes_constexpr_branch.
  - simpl. cbn [little_endian_to_Z].
    rewrite Z.shiftl_0_l, Z.lor_0_r. unfold byte_at.
    rewrite Z.shiftr_0_r. change 255 with (Z.ones 8).
    rewrite Z.land_ones by lia. symmetry. apply Z.mod_small.
    change (0 <= v < 2 ^ 8) in Hv. lia.
  - eval_steps W2. rewrite lor_bytes_2.
    rewrite convert_little_endian_to_Z;
      [reflexivity | reflexivity | repeat constructor; apply land_shiftr_is_byte].
  - eval_steps W4. rewrite lor_bytes_4.
    rewrite convert_little_endian_to_Z;
      [reflexivity | reflexivity | repeat constructor; apply land_shiftr_is_byte].
  - eval_steps W8. rewrite lor_bytes_8.
    rewrite convert_little_endian_to_Z;
      [reflexivity | reflexivity | repeat constructor; apply land_shiftr_is_byte].
Qed.

Lemma convert_byteswap_intrinsic w x :
  convert (uint w) (byteswap_intrinsic (Z.of_nat (width_bytes w)) x)
  = byteswap_intrinsic (Z.of_nat (width_bytes w)) x.
Proof.
  apply (convert_small _ (8 * Z.of_nat (width_bytes w)));
    [apply wide_enough_uint | lia | apply byteswap_intrinsic_bound].
Qed.

Lemma convert_in_range T x : in_range T x -> convert T x = x.
Proof.
  unfold in_range, convert. destruct (is_signed T); intros Hx.
  - destruct (Z.le_gt_cases (bit_width T) 0) as [Hle | Hgt].
    + rewrite (Z.pow_neg_r 2 (bit_width T - 1)) in * by lia. lia.
    + assert (2 ^ bit_width T = 2 * 2 ^ (bit_width T - 1)) as Hpow.
      { rewrite <- Z.pow_succ_r by lia. f_equal. lia. }
      rewrite Z.mod_small; lia.
  - apply Z.mod_small. assumption.
Qed.

Lemma byteswap_intrinsic_1 v : 0 <= v < 2 ^ 8 -> byteswap_intrinsic 1 v = v.
Proof.
  intros Hv. unfold byteswap_intrinsic.
  rewrite (Z_to_little_endian_bytes 1). simpl. cbn [little_endian_to_Z].
  rewrite Z.shiftl_0_l, Z.lor_0_r. unfold byte_at.
  rewrite Z.shiftr_0_r. change 255 with (Z.ones 8).
  rewrite Z.land_ones by lia. apply Z.mod_small. lia.
Qed.

Lemma SwapBytes_intrinsic_branch_result p w v :
  in_range (uint w) v ->
  fst (SwapBytes_intrinsic_branch p w v)
  = byteswap_intrinsic (Z.of_nat (width_bytes w)) v.
Proof.
  intros Hv. unfold SwapBytes_intrinsic_branch.
  unfold __builtin_bswap16, __builtin_bswap32, __builtin_bswap64,
    _byteswap_ushort, _byteswap_ulong, _byteswap_uint64.
  destruct (msc_ver p), w; cbn [ret fst];
    rewrite ?(convert_in_range _ v Hv);
    first [ symmetry; apply byteswap_intrinsic_1; exact Hv
          | exact (convert_byteswap_intrinsic W2 v)
          | exact (convert_byteswap_intrinsic W4 v)
          | exact (convert_byteswap_intrinsic W8 v) ].
Qed.

(** The value [SwapBytes] returns, on every platform and in every context. *)
Lemma SwapBytes_result p ctx w v :
  in_range (uint w) v ->
  fst (SwapBytes p ctx w v) = byteswap_intrinsic (Z.of_nat (width_bytes w)) v.
Proof.
  intros Hv. unfold SwapBytes.
  destruct (cxx17_is_constant_evaluated p ctx);
    [apply SwapBytes_constexpr_branch_result | apply SwapBytes_intrinsic_branch_result];
    assumption.
Qed.

(** * Signed and unsigned values with the same bit pattern *)

Lemma bit_width_pos w : 0 < 8 * Z.of_nat (width_bytes w).
Proof. destruct w; simpl; lia. Qed.

Lemma convert_mod_width T x :
  0 < bit_width T -> convert T x mod 2 ^ bit_width T = x mod 2 ^ bit_width T.
Proof.
  intros Hpos. unfold convert. destruct (is_signed T).
  - rewrite Zminus_mod_idemp_l. f_equal. lia.
  - apply Z.mod_mod. apply Z.pow_nonzero; lia.
Qed.

Lemma convert_congr T x y :
  0 < bit_width T ->
  x mod 2 ^ bit_width T = y mod 2 ^ bit_width T -> convert T x = convert T y.
Proof.
  intros Hpos Hxy. unfold convert.
  assert (2 ^ bit_width T <> 0) by (apply Z.pow_nonzero; lia).
  destruct (is_signed T); [|assumption].
  f_equal. rewrite <- (Zplus_mod_idemp_l x), <- (Zplus_mod_idemp_l y), Hxy.
  reflexivity.
Qed.

Lemma convert_is_in_range T x : 0 < bit_width T -> in_range T (convert T x).
Proof.
  intros Hpos. unfold in_range, convert.
  assert (0 < 2 ^ bit_width T) by (apply Z.pow_pos_nonneg; lia).
  assert (2 ^ bit_width T = 2 * 2 ^ (bit_width T - 1)) as Hpow.
  { rewrite <- Z.pow_succ_r by lia. f_equal. lia. }
  destruct (is_signed T).
  - pose proof (Z.mod_pos_bound (x + 2 ^ (bit_width T - 1)) (2 ^ bit_width T)).
    lia.
  - apply Z.mod_pos_bound. assumption.
Qed.

Lemma convert_uint_sint w x :
  in_range (uint w) x -> convert (uint w) (convert (sint w) x) = x.
Proof.
  intros Hx. rewrite <- (convert_in_range (uint w) x Hx) at 2.
  apply convert_congr; [apply bit_width_pos|].
  apply (convert_mod_width (sint w)). apply bit_width_pos.
Qed.

Lemma convert_sint_uint w x :
  in_range (sint w) x -> convert (sint w) (convert (uint w) x) = x.
Proof.
  intros Hx. rewrite <- (convert_in_range (sint w) x Hx) at 2.
  apply convert_congr; [apply bit_width_pos|].
  apply (convert_mod_width (uint w)). apply bit_width_pos.
Qed.

Lemma byte_at_convert s w x (i : nat) :
  (i < width_bytes w)%nat ->
  byte_at (convert (IntType s (Z.of_nat (width_bytes w))) x) (Z.of_nat i)
  = byte_at x (Z.of_nat i).
Proof.
  intros Hi.
  rewrite <- (byte_at_mod (convert _ x) (Z.of_nat (width_bytes w))) by lia.
  rewrite <- (byte_at_mod x (Z.of_nat (width_bytes w))) by lia.
  f_equal.
  apply (convert_mod_width (IntType s (Z.of_nat (width_bytes w)))).
  apply bit_width_pos.
Qed.

Lemma SwapBytes_signed_result p ctx w v :
  fst (SwapBytes_signed p ctx w v)
  = convert (sint w)
      (byteswap_intrinsic (Z.of_nat (width_bytes w)) (convert (uint w) v)).
Proof.
  unfold SwapBytes_signed. rewrite fst_bind. cbn [ret fst].
  rewrite SwapBytes_result; [reflexivity|].
  apply convert_is_in_range, bit_width_pos.
Qed.

Lemma reverse_bytes_result p ctx s w v :
  in_range (int_type s w) v ->
  fst (reverse_bytes p ctx s w v)
  = convert (int_type s w)
      (byteswap_intrinsic (Z.of_nat (width_bytes w)) (convert (uint w) v)).
Proof.
  intros Hv. destruct s; unfold reverse_bytes.
  - apply SwapBytes_signed_result.
  - rewrite SwapBytes_result by exact Hv.
    rewrite (convert_in_range (uint w) v Hv).
    symmetry. apply convert_byteswap_intrinsic.
Qed.

Lemma reverse_bytes_in_range p ctx s w v :
  in_range (int_type s w) v ->
  in_range (int_type s w) (fst (reverse_bytes p ctx s w v)).
Proof.
  intros Hv. rewrite reverse_bytes_result by exact Hv.
  apply convert_is_in_range, bit_width_pos.
Qed.

Lemma reverse_bytes_byte_at p ctx s w v (i : nat) :
  in_range (int_type s w) v -> (i < width_bytes w)%nat ->
  byte_at (fst (reverse_bytes p ctx s w v)) (Z.of_nat i)
  = byte_at v (Z.of_nat (width_bytes w - 1 - i)).
Proof.
  intros Hv Hi. rewrite reverse_bytes_result by exact Hv.
  unfold int_type. rewrite byte_at_convert by exact Hi.
  rewrite byte_at_byteswap_intrinsic by exact Hi.
  apply (byte_at_convert false). lia.
Qed.

Lemma reverse_bytes_involutive p1 ctx1 p2 ctx2 s w v :
  in_range (int_type s w) v ->
  fst (reverse_bytes p2 ctx2 s w (fst (reverse_bytes p1 ctx1 s w v))) = v.
Proof.
  intros Hv.
  rewrite (reverse_bytes_result p2) by (apply reverse_bytes_in_range; exact Hv).
  rewrite reverse_bytes_result by exact Hv.
  assert (convert (uint w)
            (convert (int_type s w)
               (byteswap_intrinsic (Z.of_nat (width_bytes w)) (convert (uint w) v)))
          = byteswap_intrinsic (Z.of_nat (width_bytes w)) (convert (uint w) v)) as ->.
  { destruct s.
    - apply convert_uint_sint. apply in_range_uint, byteswap_intrinsic_bound.
    - unfold int_type. fold (uint w).
      rewrite convert_byteswap_intrinsic. apply convert_byteswap_intrinsic. }
  rewrite byteswap_intrinsic_involutive
    by exact (convert_is_in_range (uint w) v (bit_width_pos w)).
  destruct s.
  - apply convert_sint_uint. exact Hv.
  - unfold int_type. fold (uint w). rewrite !(convert_in_range (uint w) v Hv).
    reflexivity.
Qed.

(** * Loops *)

Lemma fst_for_each_app {S} l1 l2 (body : nat -> S -> Trace S) s :
  fst (for_each (l1 ++ l2) body s)
  = fst (for_each l2 body (fst (for_each l1 body s))).
Proof.
  revert s. induction l1 as [|i l1 IH]; intros s; [reflexivity|].
  cbn [for_each app]. rewrite !fst_bind. apply IH.
Qed.

(** An invariant of the loop variables, indexed by the number of completed
    iterations, holds when the loop [for (i = 0; i < n; i += 1)] ends. *)
Lemma for_each_seq_invariant {S} (I : nat -> S -> Prop)
  (body : nat -> S -> Trace S) (n : nat) (s0 : S) :
  I 0%nat s0 ->
  (forall k s, (k < n)%nat -> I k s -> I (Datatypes.S k) (fst (body k s))) ->
  I n (fst (for_each (seq 0 n) body s0)).
Proof.
  intros H0 Hstep.
  assert (forall m, (m <= n)%nat -> I m (fst (for_each (seq 0 m) body s0))) as H.
  { induction m as [|m IH]; intros Hm; [exact H0|].
    rewrite seq_S, fst_for_each_app. cbn [for_each Nat.add].
    rewrite fst_bind. cbn [ret fst]. apply Hstep; [lia|]. apply IH. lia. }
  apply H. lia.
Qed.

(** * Both branches of FromLittleEndian *)

Lemma little_endian_to_Z_snoc bs b :
  little_endian_to_Z 8 (bs ++ [b])
  = Z.lor (little_endian_to_Z 8 bs) (Z.shiftl b (8 * Z.of_nat (length bs))).
Proof.
  induction bs as [|a bs IH]; cbn [app little_endian_to_Z length].
  - rewrite Z.shiftl_0_l, Z.lor_0_r, Z.lor_0_l. symmetry. apply Z.shiftl_0_r.
  - rewrite IH, Z.shiftl_lor, Z.shiftl_shiftl, Z.lor_assoc by lia.
    do 2 f_equal. lia.
Qed.

Lemma width_bytes_ge_1 w : (1 <= width_bytes w)%nat.
Proof. destruct w; simpl; lia. Qed.

Lemma FromLittleEndian_constexpr_branch_result p w bytes :
  length bytes = width_bytes w -> Forall is_byte bytes ->
  fst (FromLittleEndian_constexpr_branch p w bytes) = little_endian_to_Z 8 bytes.
Proof.
  intros Hlen Hbytes. unfold FromLittleEndian_constexpr_branch.
  pose proof (width_bytes_ge_1 w) as Hw.
  replace (little_endian_to_Z 8 bytes)
    with (little_endian_to_Z 8 (take (width_bytes w) bytes))
    by (rewrite <- Hlen, firstn_all; reflexivity).
  apply (for_each_seq_invariant
           (fun k val => val = little_endian_to_Z 8 (take k bytes))).
  - apply (convert_small _ 0); [| lia | simpl; lia].
    eapply wide_enough_mono; [| apply wide_enough_uint]. lia.
  - intros k val Hk ->. rewrite fst_bind. cbn [ret fst].
    destruct (lookup_lt_is_Some_2 bytes k) as [b Hb]; [lia|].
    assert (is_byte b) as Hbb by (eapply Forall_lookup_1; eassumption).
    rewrite (list_lookup_total_correct _ _ _ Hb).
    rewrite (convert_byte (MathType p (uint w)) (8 * Z.of_nat (width_bytes w)) b)
      by first [apply wide_enough_MathType | assumption | lia].
    rewrite (shl_byte_result _ (8 * Z.of_nat (width_bytes w)))
      by first [apply wide_enough_MathType | assumption | lia].
    assert (Z.lor (little_endian_to_Z 8 (take k bytes))
              (Z.shiftl b (8 * Z.of_nat k))
            = little_endian_to_Z 8 (take (S k) bytes)) as ->.
    { rewrite (take_S_r _ _ _ Hb), little_endian_to_Z_snoc.
      rewrite length_take, Nat.min_l by lia. reflexivity. }
    apply (convert_small _ (8 * Z.of_nat (width_bytes w)));
      [apply wide_enough_uint | lia |].
    pose proof (little_endian_to_Z_bound 8 (take (S k) bytes)) as Hb'.
    rewrite length_take, Nat.min_l in Hb' by lia.
    destruct Hb' as [Hlo Hhi]; [lia | apply Forall_take; assumption |].
    split; [assumption|].
    eapply Z.lt_le_trans; [exact Hhi|]. apply Z.pow_le_mono_r; lia.
Qed.

Lemma FromLittleEndian_memcpy_branch_result p w bytes :
  length bytes = width_bytes w -> Forall is_byte bytes ->
  fst (FromLittleEndian_memcpy_branch p w bytes)
  = value_representation (host_byte_order p) bytes.
Proof.
  intros Hlen Hbytes. unfold FromLittleEndian_memcpy_branch, memcpy_to_integer.
  cbn [ret fst]. unfold value_representation.
  destruct (host_byte_order p); apply convert_little_endian_to_Z;
    rewrite ?length_reverse; try assumption.
  apply Forall_reverse. assumption.
Qed.

(** * Both branches of ToLittleEndian *)

Lemma shiftr_bound n v k :
  0 <= n -> 0 <= k -> 0 <= v < 2 ^ n -> 0 <= Z.shiftr v k < 2 ^ n.
Proof.
  intros Hn Hk Hv. rewrite Z.shiftr_div_pow2 by lia.
  assert (0 < 2 ^ k) by (apply Z.pow_pos_nonneg; lia).
  split; [apply Z.div_pos; lia|].
  apply Z.le_lt_trans with v; [|lia].
  apply Z.div_le_upper_bound; [lia | nia].
Qed.

Lemma ToLittleEndian_constexpr_branch_result p w v :
  in_range (uint w) v ->
  fst (ToLittleEndian_constexpr_branch p w v)
  = Z_to_little_endian (Z.of_nat (width_bytes w)) 8 v.
Proof.
  intros Hv.
  assert (0 <= v < 2 ^ (8 * Z.of_nat (width_bytes w))) as Hv' by exact Hv.
  unfold ToLittleEndian_constexpr_branch.
  rewrite fst_bind. cbn [ret fst].
  rewrite Z_to_little_endian_bytes.
  pose proof (width_bytes_ge_1 w) as Hw.
  match goal with
  | |- context [for_each _ ?body ?s0] =>
      pose proof (for_each_seq_invariant
        (fun k (st : Z * list Z) =>
           snd st = ((fun i => byte_at v (Z.of_nat i)) <$> seq 0 k)
                      ++ replicate (width_bytes w - k) 0
           /\ ((k < width_bytes w)%nat -> fst st = Z.shiftr v (8 * Z.of_nat k)))
        body (width_bytes w) s0) as Hinv
  end.
  destruct Hinv as [Hbytes _].
  - cbn [fst snd seq fmap list_fmap app]. split.
    + f_equal. lia.
    + intros _. symmetry. apply Z.shiftr_0_r.
  - intros k [val bytes] Hk [Hbytes Hval]. cbn [fst snd] in *.
    specialize (Hval Hk). subst val bytes.
    assert (convert uint8_t (Z.land (Z.shiftr v (8 * Z.of_nat k)) 255)
            = byte_at v (Z.of_nat k)) as ->.
    { apply (convert_small _ 8); [apply (wide_enough_uint W1) | lia |].
      apply land_shiftr_is_byte. }
    assert (<[k := byte_at v (Z.of_nat k)]>
              (((fun i => byte_at v (Z.of_nat i)) <$> seq 0 k)
                 ++ replicate (width_bytes w - k) 0)
            = ((fun i => byte_at v (Z.of_nat i)) <$> seq 0 (S k))
                 ++ replicate (width_bytes w - S k) 0) as ->.
    { rewrite insert_app_r_alt by (rewrite length_fmap, length_seq; lia).
      rewrite length_fmap, length_seq, Nat.sub_diag.
      replace (width_bytes w - k)%nat with (S (width_bytes w - S k)) by lia.
      cbn [replicate]. cbn [insert list_insert].
      rewrite seq_S, fmap_app, <- app_assoc. reflexivity. }
    change (sizeof (uint w)) with (Z.of_nat (width_bytes w)).
    destruct (Z.ltb_spec 1 (Z.of_nat (width_bytes w))) as [Hgt | Hle].
    + rewrite fst_bind. cbn [ret fst snd shr]. split; [reflexivity|].
      intros _.
      rewrite (convert_small (promoted p (uint w)) (8 * Z.of_nat (width_bytes w)));
        [| apply wide_enough_promoted | lia | apply shiftr_bound; assumption || lia ].
      rewrite (convert_small (uint w) (8 * Z.of_nat (width_bytes w)));
        [| apply wide_enough_uint | lia | do 2 (apply shiftr_bound; try (assumption || lia)) ].
      rewrite Z.shiftr_shiftr by lia. f_equal. lia.
    + cbn [ret fst snd]. split; [reflexivity|]. lia.
  - rewrite Hbytes, Nat.sub_diag. apply app_nil_r.
Qed.

Lemma ToLittleEndian_memcpy_branch_result p w v :
  fst (ToLittleEndian_memcpy_branch p w v)
  = object_representation (host_byte_order p) (Z.of_nat (width_bytes w)) v.
Proof. reflexivity. Qed.

(** * Object representations *)

Lemma object_representation_length e (n : nat) v :
  length (object_representation e (Z.of_nat n) v) = n.
Proof.
  destruct e; unfold object_representation;
    rewrite ?length_reverse; apply Z_to_little_endian_length.
Qed.

Lemma object_representation_bytes e (n : nat) v :
  Forall is_byte (object_representation e (Z.of_nat n) v).
Proof.
  destruct e; unfold object_representation.
  - apply Z_to_little_endian_bound; lia.
  - apply reversed_bytes_Forall.
Qed.

Lemma value_object_representation e (n : nat) v :
  0 <= v < 2 ^ (8 * Z.of_nat n) ->
  value_representation e (object_representation e (Z.of_nat n) v) = v.
Proof.
  intros Hv. destruct e; unfold value_representation, object_representation;
    rewrite ?reverse_involutive, little_endian_to_Z_to_little_endian by lia;
    apply Z.mod_small; rewrite Z.mul_comm; assumption.
Qed.

Lemma object_value_representation e bs :
  Forall is_byte bs ->
  object_representation e (Z.of_nat (length bs)) (value_representation e bs) = bs.
Proof.
  intros Hbs. destruct e; unfold value_representation, object_representation.
  - apply Z_to_little_endian_to_Z; [reflexivity | lia | assumption].
  - rewrite Z_to_little_endian_to_Z.
    + apply reverse_involutive.
    + rewrite length_reverse. reflexivity.
    + lia.
    + apply Forall_reverse. assumption.
Qed.

Lemma value_representation_bound e bs :
  Forall is_byte bs ->
  0 <= value_representation e bs < 2 ^ (8 * Z.of_nat (length bs)).
Proof.
  intros Hbs. rewrite Z.mul_comm. destruct e; unfold value_representation.
  - apply little_endian_to_Z_bound; [lia | assumption].
  - rewrite <- (length_reverse bs).
    apply little_endian_to_Z_bound; [lia | apply Forall_reverse; assumption].
Qed.

(** * The values the codec returns *)

Lemma FromLittleEndian_result p ctx w bytes :
  length bytes = width_bytes w -> Forall is_byte bytes ->
  fst (FromLittleEndian p ctx w bytes)
  = value_representation (effective_byte_order p ctx) bytes.
Proof.
  intros Hlen Hbytes. unfold FromLittleEndian, effective_byte_order.
  destruct (cxx17_is_constant_evaluated p ctx).
  - apply FromLittleEndian_constexpr_branch_result; assumption.
  - apply FromLittleEndian_memcpy_branch_result; assumption.
Qed.

Lemma ToLittleEndian_result p ctx w v :
  in_range (uint w) v ->
  fst (ToLittleEndian p ctx w v)
  = object_representation (effective_byte_order p ctx)
      (Z.of_nat (width_bytes w)) v.
Proof.
  intros Hv. unfold ToLittleEndian, effective_byte_order.
  destruct (cxx17_is_constant_evaluated p ctx).
  - apply ToLittleEndian_constexpr_branch_result; assumption.
  - apply ToLittleEndian_memcpy_branch_result.
Qed.

Lemma effective_byte_order_little p ctx :
  cxx17_is_constant_evaluated p ctx = true \/ host_byte_order p = LittleEndian ->
  effective_byte_order p ctx = LittleEndian.
Proof.
  unfold effective_byte_order. intros [-> | Hhost]; [reflexivity|].
  destruct (cxx17_is_constant_evaluated p ctx); [reflexivity | assumption].
Qed.

(** * Little-endian values as sums *)

Lemma lor_shiftl_add lo hi k :
  0 <= k -> 0 <= lo < 2 ^ k -> Z.lor lo (Z.shiftl hi k) = lo + hi * 2 ^ k.
Proof.
  intros Hk Hlo. rewrite <- Z.shiftl_mul_pow2 by lia.
  symmetry. apply Z.add_nocarry_lor.
  apply Z.bits_inj'. intros m Hm. rewrite Z.land_spec, Z.bits_0.
  destruct (Z.lt_ge_cases m k) as [Hlt | Hge].
  - rewrite Z.shiftl_spec_low by lia. apply andb_false_r.
  - rewrite (proj1 (Z.bounded_iff_bits_nonneg k lo Hk (proj1 Hlo)) (proj2 Hlo) m Hge).
    reflexivity.
Qed.

Lemma foldr_add_snoc l x : foldr Z.add 0 (l ++ [x]) = foldr Z.add 0 l + x.
Proof. induction l as [|a l IH]; simpl; [lia | rewrite IH; lia]. Qed.

Lemma little_endian_sum_app n bytes rest :
  (n <= length bytes)%nat ->
  little_endian_sum n (bytes ++ rest) = little_endian_sum n bytes.
Proof.
  intros Hn. unfold little_endian_sum. f_equal.
  apply list_fmap_ext. intros k i Hi. apply lookup_seq in Hi as [-> Hi].
  rewrite lookup_total_app_l by lia. reflexivity.
Qed.

Lemma little_endian_to_Z_sum bytes :
  Forall is_byte bytes ->
  little_endian_to_Z 8 bytes = little_endian_sum (length bytes) bytes.
Proof.
  induction bytes as [|b bytes IH] using rev_ind; intros Hbytes; [reflexivity|].
  apply Forall_app in Hbytes as [Hbytes Hb].
  rewrite little_endian_to_Z_snoc, length_app. cbn [length].
  rewrite Nat.add_1_r. unfold little_endian_sum at 1.
  rewrite seq_S, fmap_app, list_fmap_singleton, foldr_add_snoc. cbn [Nat.add].
  fold (little_endian_sum (length bytes) (bytes ++ [b])).
  rewrite little_endian_sum_app by lia. rewrite <- IH by assumption.
  rewrite list_lookup_total_middle by reflexivity.
  apply lor_shiftl_add; [lia|].
  rewrite Z.mul_comm. apply little_endian_to_Z_bound; [lia | assumption].
Qed.

(** * Shift amounts *)

Lemma width_le_wide_enough n U : wide_enough n U -> n <= bit_width U.
Proof. intros [[_ H] | H]; lia. Qed.

Lemma shift_mask_shifts U V v k :
  0 <= k < bit_width U -> Forall shift_in_bounds (snd (shift_mask U V v k)).
Proof.
  intros Hk. unfold shift_mask. rewrite snd_bind. cbn [shr ret snd app].
  repeat constructor; simpl; lia.
Qed.

Lemma shl_shifts U x k :
  0 <= k < bit_width U -> Forall shift_in_bounds (snd (shl U x k)).
Proof. intros Hk. repeat constructor; simpl; lia. Qed.

Lemma shr_shifts U x k :
  0 <= k < bit_width U -> Forall shift_in_bounds (snd (shr U x k)).
Proof. intros Hk. repeat constructor; simpl; lia. Qed.

Lemma for_each_shifts_in {S} (Q : shift_event -> Prop) idx
  (body : nat -> S -> Trace S) s :
  (forall i s', In i idx -> Forall Q (snd (body i s'))) ->
  Forall Q (snd (for_each idx body s)).
Proof.
  revert s. induction idx as [|i idx IH]; intros s Hbody; cbn [for_each].
  - constructor.
  - rewrite snd_bind. apply Forall_app. split.
    + apply Hbody. left. reflexivity.
    + apply IH. intros j s' Hj. apply Hbody. right. exact Hj.
Qed.

Lemma SwapBytes_shifts p ctx w v :
  Forall shift_in_bounds (snd (SwapBytes p ctx w v)).
Proof.
  unfold SwapBytes. destruct (cxx17_is_constant_evaluated p ctx).
  - pose proof (width_le_wide_enough _ _ (wide_enough_promoted p w)) as HP.
    pose proof (width_le_wide_enough _ _ (wide_enough_MathType p w)) as HM.
    destruct w; unfold SwapBytes_constexpr_branch; cbn [width_bytes] in HP, HM;
      repeat (rewrite snd_bind; apply Forall_app; split);
      first [ apply shift_mask_shifts; lia | apply shl_shifts; lia | constructor ].
  - unfold SwapBytes_intrinsic_branch. destruct (msc_ver p), w; constructor.
Qed.

Lemma SwapBytes_signed_shifts p ctx w v :
  Forall shift_in_bounds (snd (SwapBytes_signed p ctx w v)).
Proof.
  unfold SwapBytes_signed. rewrite snd_bind. apply Forall_app.
  split; [apply SwapBytes_shifts | constructor].
Qed.

Lemma FromLittleEndian_shifts p ctx w bytes :
  Forall shift_in_bounds (snd (FromLittleEndian p ctx w bytes)).
Proof.
  unfold FromLittleEndian. destruct (cxx17_is_constant_evaluated p ctx);
    [| constructor].
  pose proof (width_le_wide_enough _ _ (wide_enough_MathType p w)) as HM.
  apply for_each_shifts_in. intros i val Hi. apply in_seq in Hi.
  rewrite snd_bind. apply Forall_app. split; [| constructor].
  apply shl_shifts. lia.
Qed.

Lemma ToLittleEndian_shifts p ctx w v :
  Forall shift_in_bounds (snd (ToLittleEndian p ctx w v)).
Proof.
  unfold ToLittleEndian. destruct (cxx17_is_constant_evaluated p ctx);
    [| constructor].
  pose proof (width_le_wide_enough _ _ (wide_enough_promoted p w)) as HP.
  unfold ToLittleEndian_constexpr_branch. rewrite snd_bind.
  apply Forall_app. split; [| constructor].
  apply for_each_shifts_in. intros i st Hi. cbv zeta.
  change (sizeof (uint w)) with (Z.of_nat (width_bytes w)).
  destruct (Z.ltb_spec 1 (Z.of_nat (width_bytes w))); [| constructor].
  rewrite snd_bind. apply Forall_app. split; [| constructor].
  apply shr_shifts. lia.
Qed.

(** * Reinterpretation of bit patterns *)

Lemma pow_width_split w :
  2 ^ (8 * Z.of_nat (width_bytes w))
  = 2 * 2 ^ (8 * Z.of_nat (width_bytes w) - 1).
Proof.
  pose proof (bit_width_pos w).
  rewrite <- Z.pow_succ_r by lia. f_equal. lia.
Qed.

Lemma convert_uint_reinterpret w v :
  in_range (sint w) v -> convert (uint w) v = reinterpret_as_unsigned w v.
Proof.
  unfold in_range, convert, reinterpret_as_unsigned, bit_width. cbn [sint uint is_signed sizeof].
  intros Hv. pose proof (pow_width_split w) as Hpow.
  assert (0 < 2 ^ (8 * Z.of_nat (width_bytes w) - 1))
    by (apply Z.pow_pos_nonneg; pose proof (bit_width_pos w); lia).
  destruct (Z.ltb_spec v 0).
  - rewrite <- (Z.mod_add v 1) by lia. rewrite Z.mul_1_l. apply Z.mod_small. lia.
  - apply Z.mod_small. lia.
Qed.

Lemma convert_sint_reinterpret w u :
  in_range (uint w) u -> convert (sint w) u = reinterpret_as_signed w u.
Proof.
  unfold in_range, convert, reinterpret_as_signed, bit_width. cbn [sint uint is_signed sizeof].
  intros Hu. pose proof (pow_width_split w) as Hpow.
  assert (0 < 2 ^ (8 * Z.of_nat (width_bytes w) - 1))
    by (apply Z.pow_pos_nonneg; pose proof (bit_width_pos w); lia).
  destruct (Z.ltb_spec u (2 ^ (8 * Z.of_nat (width_bytes w) - 1))).
  - rewrite Z.mod_small; lia.
  - replace (u + 2 ^ (8 * Z.of_nat (width_bytes w) - 1))
      with (u - 2 ^ (8 * Z.of_nat (width_bytes w) - 1)
            + 1 * 2 ^ (8 * Z.of_nat (width_bytes w))) by lia.
    rewrite Z.mod_add by lia. rewrite Z.mod_small; lia.
Qed.

(** * Round trips across evaluation contexts *)

(** Bytes produced in one context and read back in another: on a
    little-endian host the value is recovered. *)
Lemma round_trip_across_contexts_little_endian p ctx ctx' w v :
  host_byte_order p = LittleEndian -> in_range (uint w) v ->
  result (FromLittleEndian p ctx' w (result (ToLittleEndian p ctx w v))) = v.
Proof.
  intros Hhost Hv. unfold result.
  rewrite ToLittleEndian_result by exact Hv.
  rewrite FromLittleEndian_result
    by (apply object_representation_length || apply object_representation_bytes).
  rewrite !effective_byte_order_little by (right; exact Hhost).
  apply value_object_representation. exact Hv.
Qed.

(** On a big-endian host, bytes laid out during constant evaluation and
    read back at run time give the byte-reversed value. *)
Remark round_trip_across_contexts_big_endian :
  result (FromLittleEndian gcc_s390x RunTime W2
            (result (ToLittleEndian gcc_s390x ConstantEvaluation W2 0x0102)))
  = 0x0201.
Proof. reflexivity. Qed.

(** Closed range side conditions. *)
Ltac closed_range :=
  vm_compute; split; [intros Hc; discriminate Hc | reflexivity].

(** * The claims of the specification *)

(** C1: for every unsigned type of a supported width and every value of
    it, the shift/mask/rebuild branch of [SwapBytes] (taken when the
    detector reports constant evaluation) and the intrinsic branch (taken
    otherwise, with either family of intrinsics) return the same value. *)
Theorem SwapBytes_branches_agree p p' w v :
  in_range (uint w) v ->
  result (SwapBytes_constexpr_branch p w v)
  = result (SwapBytes_intrinsic_branch p' w v).
Proof.
  intros Hv. unfold result.
  rewrite SwapBytes_constexpr_branch_result, SwapBytes_intrinsic_branch_result
    by exact Hv.
  reflexivity.
Qed.

Lemma SwapBytes_branches_agree_witness :
  result (SwapBytes_constexpr_branch gcc_x86_64 W4 0xAABBCCDD)
  = result (SwapBytes_intrinsic_branch msvc_x64 W4 0xAABBCCDD).
Proof.
  apply (SwapBytes_branches_agree gcc_x86_64 msvc_x64 W4 0xAABBCCDD).
  closed_range.
Defined.

(** C2: for every integer type of width [w] in 1, 2, 4, 8 bytes, signed or
    unsigned, and every value [v] of it, the result of [reverse_bytes] is a
    value of the type whose byte at position [i] is the byte of [v] at
    position [w - 1 - i]; for [w = 1] the result is [v];
    [reverse_bytes(uint16(0x1234))] is [0x3412] and
    [reverse_bytes(uint32(0xAABBCCDD))] is [0xDDCCBBAA]. *)
Theorem reverse_bytes_mirrors_bytes p ctx :
  (forall s w v (i : nat),
      in_range (int_type s w) v -> (i < width_bytes w)%nat ->
      in_range (int_type s w) (result (reverse_bytes p ctx s w v))
      /\ byte_at (result (reverse_bytes p ctx s w v)) (Z.of_nat i)
         = byte_at v (Z.of_nat (width_bytes w - 1 - i)))
  /\ (forall s v,
         in_range (int_type s W1) v -> result (reverse_bytes p ctx s W1 v) = v)
  /\ result (reverse_bytes p ctx false W2 0x1234) = 0x3412
  /\ result (reverse_bytes p ctx false W4 0xAABBCCDD) = 0xDDCCBBAA.
Proof.
  unfold result. repeat split.
  - apply reverse_bytes_in_range. assumption.
  - apply reverse_bytes_byte_at; assumption.
  - intros s v Hv. rewrite reverse_bytes_result by exact Hv.
    change (Z.of_nat (width_bytes W1)) with 1.
    rewrite byteswap_intrinsic_1
      by exact (convert_is_in_range (uint W1) v (bit_width_pos W1)).
    destruct s.
    + apply convert_sint_uint. exact Hv.
    + unfold int_type. fold (uint W1).
      rewrite !(convert_in_range (uint W1) v Hv). reflexivity.
  - rewrite reverse_bytes_result by closed_range. reflexivity.
  - rewrite reverse_bytes_result by closed_range. reflexivity.
Qed.

Lemma reverse_bytes_mirrors_bytes_witness :
  byte_at (result (reverse_bytes gcc_x86_64 RunTime true W2 (-2))) 0
  = byte_at (-2) 1
  /\ result (reverse_bytes gcc_x86_64 RunTime true W1 (-2)) = -2.
Proof.
  split.
  - apply (proj1 (reverse_bytes_mirrors_bytes gcc_x86_64 RunTime)
             true W2 (-2) 0%nat); [closed_range | cbn; lia].
  - apply (proj1 (proj2 (reverse_bytes_mirrors_bytes gcc_x86_64 RunTime))
             true (-2)); closed_range.
Defined.

(** C3: for every unsigned type of a supported width and every value [v]
    of it, [FromLittleEndian(ToLittleEndian(v))] is [v], on every platform
    and in every evaluation context. *)
Theorem FromLittleEndian_ToLittleEndian p ctx w v :
  in_range (uint w) v ->
  result (FromLittleEndian p ctx w (result (ToLittleEndian p ctx w v))) = v.
Proof.
  intros Hv. unfold result.
  rewrite ToLittleEndian_result by exact Hv.
  rewrite FromLittleEndian_result
    by (apply object_representation_length || apply object_representation_bytes).
  apply value_object_representation. exact Hv.
Qed.

Lemma FromLittleEndian_ToLittleEndian_witness :
  result (FromLittleEndian gcc_s390x RunTime W4
            (result (ToLittleEndian gcc_s390x RunTime W4 0x01020304)))
  = 0x01020304.
Proof.
  apply (FromLittleEndian_ToLittleEndian gcc_s390x RunTime W4 0x01020304).
  closed_range.
Defined.

Ltac closed_bytes :=
  repeat (constructor; [closed_range |]); constructor.

(** C4, as stated, fails on the run-time branch of a big-endian host:
    there [ToLittleEndian(uint16(0x0102))] is the object representation
    [0x01, 0x02], whose byte at index 0 is not the least-significant byte
    of the value, and [FromLittleEndian] of [0x01, 0x02] is [0x0102], not
    [0x01 + 0x02 * 256]. *)
Lemma little_endian_layout_fails_big_endian_run_time :
  result (ToLittleEndian gcc_s390x RunTime W2 0x0102) !! 0%nat
  <> Some (Z.land (Z.shiftr 0x0102 (8 * 0)) 0xff)
  /\ result (FromLittleEndian gcc_s390x RunTime W2 [0x01; 0x02])
     <> little_endian_sum 2 [0x01; 0x02].
Proof. split; vm_compute; intros Hc; discriminate Hc. Qed.

(** C4 (amended): in a constant-evaluated call on any host, and in any
    call on a little-endian host, [ToLittleEndian(v)] has [sizeof(T)]
    bytes and its byte at index [i] is [(v >> (8*i)) & 0xFF], and
    [FromLittleEndian(bytes)] is the sum over [i < sizeof(T)] of
    [bytes[i] * 2^(8*i)]; there [ToLittleEndian(0x0102030405060708)] on the
    8-byte type is [0x08, 0x07, 0x06, 0x05, 0x04, 0x03, 0x02, 0x01]. *)
Theorem little_endian_layout p ctx :
  cxx17_is_constant_evaluated p ctx = true
  \/ host_byte_order p = LittleEndian ->
  (forall w v,
      in_range (uint w) v ->
      length (result (ToLittleEndian p ctx w v)) = width_bytes w
      /\ forall i : nat, (i < width_bytes w)%nat ->
           result (ToLittleEndian p ctx w v) !! i
           = Some (Z.land (Z.shiftr v (8 * Z.of_nat i)) 0xff))
  /\ (forall w bytes,
         length bytes = width_bytes w -> Forall is_byte bytes ->
         result (FromLittleEndian p ctx w bytes)
         = little_endian_sum (width_bytes w) bytes)
  /\ result (ToLittleEndian p ctx W8 0x0102030405060708)
     = [0x08; 0x07; 0x06; 0x05; 0x04; 0x03; 0x02; 0x01].
Proof.
  intros Hle. apply effective_byte_order_little in Hle. unfold result.
  split; [| split].
  - intros w v Hv. rewrite ToLittleEndian_result, Hle by exact Hv.
    split; [apply (object_representation_length LittleEndian)|].
    intros i Hi. apply Z_to_little_endian_lookup. exact Hi.
  - intros w bytes Hlen Hbytes.
    rewrite FromLittleEndian_result, Hle by assumption.
    rewrite <- Hlen. apply little_endian_to_Z_sum. assumption.
  - rewrite ToLittleEndian_result, Hle by closed_range. reflexivity.
Qed.

Lemma little_endian_layout_witness :
  result (ToLittleEndian gcc_s390x ConstantEvaluation W2 0x0102) !! 0%nat
  = Some (Z.land (Z.shiftr 0x0102 (8 * Z.of_nat 0)) 0xff)
  /\ result (FromLittleEndian gcc_x86_64 RunTime W2 [0x01; 0x02])
     = little_endian_sum 2 [0x01; 0x02].
Proof.
  split.
  - apply (proj1 (little_endian_layout gcc_s390x ConstantEvaluation
                    (or_introl eq_refl)) W2 0x0102); [closed_range | cbn; lia].
  - apply (proj1 (proj2 (little_endian_layout gcc_x86_64 RunTime
                           (or_intror eq_refl))) W2 [0x01; 0x02]);
      [reflexivity | closed_bytes].
Defined.

(** C5, as stated, fails on a big-endian host: on the 2-byte type the
    byte-by-byte branch of [FromLittleEndian] reads [0x01, 0x02] as
    [0x0201] and the [memcpy] branch reads it as [0x0102]; the two
    branches of [ToLittleEndian] write [0x0102] as [0x02, 0x01] and as
    [0x01, 0x02]. *)
Lemma codec_branches_differ_big_endian :
  result (FromLittleEndian_constexpr_branch gcc_s390x W2 [0x01; 0x02])
  <> result (FromLittleEndian_memcpy_branch gcc_s390x W2 [0x01; 0x02])
  /\ result (ToLittleEndian_constexpr_branch gcc_s390x W2 0x0102)
     <> result (ToLittleEndian_memcpy_branch gcc_s390x W2 0x0102).
Proof. split; vm_compute; intros Hc; discriminate Hc. Qed.

(** C5 (amended): on a little-endian host, for every unsigned type of a
    supported width, the byte-by-byte branch and the [memcpy] branch of
    [FromLittleEndian] return the same value for every byte array of
    length [sizeof(T)], and the two branches of [ToLittleEndian] return
    the same bytes for every value. *)
Theorem codec_branches_agree_little_endian p w :
  host_byte_order p = LittleEndian ->
  (forall bytes,
      length bytes = width_bytes w -> Forall is_byte bytes ->
      result (FromLittleEndian_constexpr_branch p w bytes)
      = result (FromLittleEndian_memcpy_branch p w bytes))
  /\ (forall v,
         in_range (uint w) v ->
         result (ToLittleEndian_constexpr_branch p w v)
         = result (ToLittleEndian_memcpy_branch p w v)).
Proof.
  intros Hhost. unfold result. split.
  - intros bytes Hlen Hbytes.
    rewrite FromLittleEndian_constexpr_branch_result,
      FromLittleEndian_memcpy_branch_result, Hhost by assumption.
    reflexivity.
  - intros v Hv.
    rewrite ToLittleEndian_constexpr_branch_result,
      ToLittleEndian_memcpy_branch_result, Hhost by assumption.
    reflexivity.
Qed.

Lemma codec_branches_agree_little_endian_witness :
  result (FromLittleEndian_constexpr_branch gcc_x86_64 W4 [1; 2; 3; 4])
  = result (FromLittleEndian_memcpy_branch gcc_x86_64 W4 [1; 2; 3; 4])
  /\ result (ToLittleEndian_constexpr_branch gcc_x86_64 W4 0x04030201)
     = result (ToLittleEndian_memcpy_branch gcc_x86_64 W4 0x04030201).
Proof.
  split.
  - apply (proj1 (codec_branches_agree_little_endian gcc_x86_64 W4 eq_refl));
      [reflexivity | closed_bytes].
  - apply (proj2 (codec_branches_agree_little_endian gcc_x86_64 W4 eq_refl)).
    closed_range.
Defined.

(** C6: for every integer type of a supported width, signed or unsigned,
    and every value [v] of it, [reverse_bytes(reverse_bytes(v))] is [v],
    whatever the evaluation contexts of the two calls. *)
Theorem reverse_bytes_involution p ctx ctx' s w v :
  in_range (int_type s w) v ->
  result (reverse_bytes p ctx' s w (result (reverse_bytes p ctx s w v))) = v.
Proof. apply reverse_bytes_involutive. Qed.

Lemma reverse_bytes_involution_witness :
  result (reverse_bytes gcc_x86_64 RunTime true W2
            (result (reverse_bytes gcc_x86_64 ConstantEvaluation true W2 (-2))))
  = -2.
Proof.
  apply (reverse_bytes_involution gcc_x86_64 ConstantEvaluation RunTime
           true W2 (-2)).
  closed_range.
Defined.

(** C7: for every signed type of a supported width and every value [v] of
    it, [SwapBytes(v)] is the signed value whose bit pattern is the byte
    reversal of the bit pattern of [v]: reinterpret [v] as unsigned, swap,
    reinterpret as signed.  Each byte of the result is a byte of [v], and
    [SwapBytes(int16(-2))], of bit pattern [0xFFFE], is the value of bit
    pattern [0xFEFF]. *)
Theorem SwapBytes_signed_reinterprets p ctx :
  (forall w v,
      in_range (sint w) v ->
      result (SwapBytes_signed p ctx w v)
      = reinterpret_as_signed w
          (result (SwapBytes p ctx w (reinterpret_as_unsigned w v)))
      /\ forall i : nat, (i < width_bytes w)%nat ->
           byte_at (result (SwapBytes_signed p ctx w v)) (Z.of_nat i)
           = byte_at v (Z.of_nat (width_bytes w - 1 - i)))
  /\ reinterpret_as_unsigned W2 (-2) = 0xFFFE
  /\ reinterpret_as_unsigned W2
       (result (SwapBytes_signed p ctx W2 (-2))) = 0xFEFF.
Proof.
  unfold result. split; [| split].
  - intros w v Hv. split.
    + rewrite SwapBytes_signed_result.
      rewrite <- convert_uint_reinterpret by exact Hv.
      rewrite SwapBytes_result
        by exact (convert_is_in_range (uint w) v (bit_width_pos w)).
      apply convert_sint_reinterpret.
      apply in_range_uint, byteswap_intrinsic_bound.
    + intros i Hi. apply (reverse_bytes_byte_at p ctx true); assumption.
  - reflexivity.
  - rewrite SwapBytes_signed_result. reflexivity.
Qed.

Lemma SwapBytes_signed_reinterprets_witness :
  result (SwapBytes_signed gcc_x86_64 ConstantEvaluation W2 (-2))
  = reinterpret_as_signed W2
      (result (SwapBytes gcc_x86_64 ConstantEvaluation W2
                 (reinterpret_as_unsigned W2 (-2)))).
Proof.
  apply (proj1 (SwapBytes_signed_reinterprets gcc_x86_64 ConstantEvaluation)
           W2 (-2)).
  closed_range.
Defined.

(** C8: in every call of [SwapBytes] (either overload),
    [FromLittleEndian] and [ToLittleEndian] on a supported width, on every
    platform and in every context, each shift evaluated has a non-negative
    amount strictly below the bit width of its operand type; on a 1-byte
    type every shift evaluated is a shift by 0. *)
Theorem shifts_within_operand_width p ctx :
  (forall w v, Forall shift_in_bounds (shifts (SwapBytes p ctx w v)))
  /\ (forall w v, Forall shift_in_bounds (shifts (SwapBytes_signed p ctx w v)))
  /\ (forall w bytes,
         Forall shift_in_bounds (shifts (FromLittleEndian p ctx w bytes)))
  /\ (forall w v, Forall shift_in_bounds (shifts (ToLittleEndian p ctx w v)))
  /\ (forall v bytes,
         Forall (fun e => amount e = 0)
           (shifts (SwapBytes p ctx W1 v)
              ++ shifts (SwapBytes_signed p ctx W1 v)
              ++ shifts (FromLittleEndian p ctx W1 bytes)
              ++ shifts (ToLittleEndian p ctx W1 v))).
Proof.
  unfold shifts. repeat split.
  - apply SwapBytes_shifts.
  - apply SwapBytes_signed_shifts.
  - apply FromLittleEndian_shifts.
  - apply ToLittleEndian_shifts.
  - unfold SwapBytes_signed, SwapBytes, FromLittleEndian, ToLittleEndian.
    destruct (cxx17_is_constant_evaluated p ctx).
    + cbn. repeat constructor.
    + unfold SwapBytes_intrinsic_branch. destruct (msc_ver p); cbn; constructor.
Qed.

(** C9, as stated, fails where the first preprocessor branch is not taken
    (MSVC, and GCC before 9): there the detector returns false while a
    constant expression is being evaluated. *)
Lemma detector_false_in_constant_evaluation_msvc :
  ~ (cxx17_is_constant_evaluated msvc_x64 ConstantEvaluation = true
     <-> ConstantEvaluation = ConstantEvaluation).
Proof. intros [_ H]. specialize (H eq_refl). discriminate H. Qed.

(** C9 (amended): with GCC 9 or later and with clang the detector
    returns true if and only if the call is evaluated as a compile-time
    constant; on every other toolchain it returns false in both contexts;
    at run time it returns false on every toolchain. *)
Theorem detector_contract p ctx :
  (gnuc9_or_clang p = true ->
   (cxx17_is_constant_evaluated p ctx = true <-> ctx = ConstantEvaluation))
  /\ (gnuc9_or_clang p = false -> cxx17_is_constant_evaluated p ctx = false)
  /\ cxx17_is_constant_evaluated p RunTime = false.
Proof.
  unfold cxx17_is_constant_evaluated. split; [| split].
  - intros ->. destruct ctx; simpl; split; intros H;
      reflexivity || discriminate H.
  - intros ->. destruct (msc_ver p); reflexivity.
  - destruct (gnuc9_or_clang p), (msc_ver p); reflexivity.
Qed.

Lemma detector_contract_witness :
  (cxx17_is_constant_evaluated gcc_x86_64 ConstantEvaluation = true
   <-> ConstantEvaluation = ConstantEvaluation)
  /\ cxx17_is_constant_evaluated msvc_x64 ConstantEvaluation = false.
Proof.
  split.
  - apply (proj1 (detector_contract gcc_x86_64 ConstantEvaluation)).
    reflexivity.
  - apply (proj1 (proj2 (detector_contract msvc_x64 ConstantEvaluation))).
    reflexivity.
Defined.

(** C10: for every byte array [b] of length [w], [FromLittleEndian(b)] is
    a value of the unsigned [w]-byte type and
    [ToLittleEndian(FromLittleEndian(b))] is [b]; for every value [v] of
    the type, [ToLittleEndian(v)] is a byte array of length [w] and
    [FromLittleEndian(ToLittleEndian(v))] is [v]: the codec is a bijection
    between the values of the type and the byte arrays of length [w]. *)
Theorem codec_bijection p ctx w :
  (forall bytes,
      length bytes = width_bytes w -> Forall is_byte bytes ->
      in_range (uint w) (result (FromLittleEndian p ctx w bytes))
      /\ result (ToLittleEndian p ctx w
                   (result (FromLittleEndian p ctx w bytes))) = bytes)
  /\ (forall v,
         in_range (uint w) v ->
         length (result (ToLittleEndian p ctx w v)) = width_bytes w
         /\ Forall is_byte (result (ToLittleEndian p ctx w v))
         /\ result (FromLittleEndian p ctx w
                      (result (ToLittleEndian p ctx w v))) = v).
Proof.
  unfold result. split.
  - intros bytes Hlen Hbytes.
    rewrite FromLittleEndian_result by assumption.
    assert (in_range (uint w)
              (value_representation (effective_byte_order p ctx) bytes)) as Hv.
    { apply in_range_uint. rewrite <- Hlen.
      apply value_representation_bound. assumption. }
    split; [exact Hv|].
    rewrite ToLittleEndian_result by exact Hv.
    rewrite <- Hlen. apply object_value_representation. assumption.
  - intros v Hv. rewrite ToLittleEndian_result by exact Hv.
    split; [apply object_representation_length|].
    split; [apply object_representation_bytes|].
    rewrite FromLittleEndian_result
      by (apply object_representation_length || apply object_representation_bytes).
    apply value_object_representation. exact Hv.
Qed.

Lemma codec_bijection_witness :
  result (ToLittleEndian gcc_s390x RunTime W4
            (result (FromLittleEndian gcc_s390x RunTime W4 [1; 2; 3; 4])))
  = [1; 2; 3; 4].
Proof.
  apply (proj1 (codec_bijection gcc_s390x RunTime W4) [1; 2; 3; 4]);
    [reflexivity | closed_bytes].
Defined.

(** * Further properties of the code *)

(** ** MathType *)

Lemma MathType_shape p T :
  is_signed (MathType p T) = is_signed T
  /\ sizeof (MathType p T) = Z.max (sizeof T) (sizeof_int p)
  /\ MathType p (MathType p T) = MathType p T.
Proof.
  unfold MathType.
  destruct (Z.leb_spec (sizeof_int p) (sizeof T)) as [Hle | Hlt].
  - split; [reflexivity|]. split; [lia|].
    destruct (Z.leb_spec (sizeof_int p) (sizeof T)); [reflexivity | lia].
  - destruct (is_signed T); cbn [is_signed sizeof int_t unsigned_int];
      (split; [reflexivity|]); (split; [lia|]);
      rewrite Z.leb_refl; reflexivity.
Qed.

Lemma in_range_widen T U x :
  is_signed U = is_signed T -> bit_width T <= bit_width U ->
  in_range T x -> in_range U x.
Proof.
  unfold in_range. intros -> Hle. destruct (is_signed T); intros Hx.
  - destruct (Z.le_gt_cases (bit_width T) 0) as [Hneg | Hpos].
    + rewrite (Z.pow_neg_r 2 (bit_width T - 1)) in Hx by lia. lia.
    + assert (2 ^ (bit_width T - 1) <= 2 ^ (bit_width U - 1))
        by (apply Z.pow_le_mono_r; lia).
      lia.
  - destruct (Z.lt_ge_cases (bit_width T) 0) as [Hneg | Hpos].
    + rewrite (Z.pow_neg_r 2 (bit_width T)) in Hx by lia. lia.
    + assert (2 ^ bit_width T <= 2 ^ bit_width U)
        by (apply Z.pow_le_mono_r; lia).
      lia.
Qed.

(** X1: [MathType<T>] has the signedness of [T]; every value of [T] is a
    value of [MathType<T>], and converting it to [MathType<T>] leaves it
    unchanged, for signed and unsigned [T] of any size. *)
Theorem MathType_preserves_values p T x :
  in_range T x ->
  is_signed (MathType p T) = is_signed T
  /\ in_range (MathType p T) x /\ convert (MathType p T) x = x.
Proof.
  intros Hx.
  assert (in_range (MathType p T) x) as HM.
  { apply (in_range_widen T); [| | exact Hx].
    - apply MathType_shape.
    - unfold bit_width.
      rewrite (proj1 (proj2 (MathType_shape p T))). lia. }
  split; [apply MathType_shape|].
  split; [exact HM | apply convert_in_range; exact HM].
Qed.

Lemma MathType_preserves_values_witness :
  is_signed (MathType gcc_x86_64 (sint W1)) = is_signed (sint W1)
  /\ in_range (MathType gcc_x86_64 (sint W1)) (-1)
  /\ convert (MathType gcc_x86_64 (sint W1)) (-1) = -1.
Proof.
  apply (MathType_preserves_values gcc_x86_64 (sint W1) (-1)).
  closed_range.
Defined.

(** ** SwapBytes *)

(** X2: the value [SwapBytes] returns, for a signed or an unsigned type,
    does not depend on the toolchain, on [sizeof(int)], on the host byte
    order or on the evaluation context. *)
Theorem reverse_bytes_platform_independent p ctx p' ctx' s w v :
  in_range (int_type s w) v ->
  result (reverse_bytes p ctx s w v) = result (reverse_bytes p' ctx' s w v).
Proof.
  intros Hv. unfold result.
  rewrite !reverse_bytes_result by exact Hv. reflexivity.
Qed.

Lemma reverse_bytes_platform_independent_witness :
  result (reverse_bytes gcc_s390x ConstantEvaluation true W4 (-3))
  = result (reverse_bytes msvc_x64 RunTime true W4 (-3)).
Proof.
  apply (reverse_bytes_platform_independent
           gcc_s390x ConstantEvaluation msvc_x64 RunTime true W4 (-3)).
  closed_range.
Defined.

Lemma byte_at_bitwise (f : Z -> Z -> Z) (g : bool -> bool -> bool) :
  g false false = false ->
  (forall a b n, Z.testbit (f a b) n = g (Z.testbit a n) (Z.testbit b n)) ->
  forall x y i, 0 <= i ->
    byte_at (f x y) i = f (byte_at x i) (byte_at y i).
Proof.
  intros Hg Hf x y i Hi. apply Z.bits_inj'. intros j Hj.
  rewrite Hf, !testbit_byte_at, Hf by lia.
  destruct (j <? 8); [reflexivity | symmetry; exact Hg].
Qed.

Lemma bitwise_bound (f : Z -> Z -> Z) (g : bool -> bool -> bool) n x y :
  g false false = false ->
  (forall a b m, Z.testbit (f a b) m = g (Z.testbit a m) (Z.testbit b m)) ->
  (0 <= x -> 0 <= y -> 0 <= f x y) ->
  0 <= n -> 0 <= x < 2 ^ n -> 0 <= y < 2 ^ n -> 0 <= f x y < 2 ^ n.
Proof.
  intros Hg Hf Hnonneg Hn Hx Hy.
  assert (0 <= f x y) as H0 by (apply Hnonneg; lia).
  split; [exact H0|].
  apply (Z.bounded_iff_bits_nonneg n); [lia | exact H0 |].
  intros m Hm. rewrite Hf.
  rewrite (proj1 (Z.bounded_iff_bits_nonneg n x Hn (proj1 Hx)) (proj2 Hx) m Hm).
  rewrite (proj1 (Z.bounded_iff_bits_nonneg n y Hn (proj1 Hy)) (proj2 Hy) m Hm).
  exact Hg.
Qed.

Lemma SwapBytes_bitwise (f : Z -> Z -> Z) (g : bool -> bool -> bool)
  p ctx w a b :
  g false false = false ->
  (forall x y m, Z.testbit (f x y) m = g (Z.testbit x m) (Z.testbit y m)) ->
  (forall x y, 0 <= x -> 0 <= y -> 0 <= f x y) ->
  in_range (uint w) a -> in_range (uint w) b ->
  fst (SwapBytes p ctx w (f a b))
  = f (fst (SwapBytes p ctx w a)) (fst (SwapBytes p ctx w b)).
Proof.
  intros Hg Hf Hnonneg Ha Hb.
  assert (in_range (uint w) (f a b)) as Hab.
  { apply in_range_uint.
    apply (bitwise_bound f g); auto; lia. }
  rewrite !SwapBytes_result by assumption.
  apply (byte_at_inj (width_bytes w)).
  - apply byteswap_intrinsic_bound.
  - apply (bitwise_bound f g); auto; try lia; apply byteswap_intrinsic_bound.
  - intros i Hi.
    rewrite (byte_at_bitwise f g) by (auto; lia).
    rewrite !byte_at_byteswap_intrinsic by exact Hi.
    apply (byte_at_bitwise f g); auto; lia.
Qed.

(** X3: [SwapBytes] commutes with the bitwise operations: the swap of
    [a | b], [a & b] and [a ^ b] is the same operation applied to the
    swaps of [a] and [b]. *)
Theorem SwapBytes_distributes_over_bitwise p ctx w a b :
  in_range (uint w) a -> in_range (uint w) b ->
  result (SwapBytes p ctx w (Z.lor a b))
  = Z.lor (result (SwapBytes p ctx w a)) (result (SwapBytes p ctx w b))
  /\ result (SwapBytes p ctx w (Z.land a b))
     = Z.land (result (SwapBytes p ctx w a)) (result (SwapBytes p ctx w b))
  /\ result (SwapBytes p ctx w (Z.lxor a b))
     = Z.lxor (result (SwapBytes p ctx w a)) (result (SwapBytes p ctx w b)).
Proof.
  intros Ha Hb. unfold result. split; [| split].
  - apply (SwapBytes_bitwise Z.lor orb); auto using Z.lor_spec.
    intros x y Hx Hy. apply Z.lor_nonneg. split; assumption.
  - apply (SwapBytes_bitwise Z.land andb); auto using Z.land_spec.
    intros x y Hx Hy. apply Z.land_nonneg. left. assumption.
  - apply (SwapBytes_bitwise Z.lxor xorb); auto using Z.lxor_spec.
    intros x y Hx Hy. apply Z.lxor_nonneg. split; intros _; assumption.
Qed.

Lemma SwapBytes_distributes_over_bitwise_witness :
  result (SwapBytes gcc_x86_64 ConstantEvaluation W4 (Z.lor 0x1200 0x0034))
  = Z.lor (result (SwapBytes gcc_x86_64 ConstantEvaluation W4 0x1200))
      (result (SwapBytes gcc_x86_64 ConstantEvaluation W4 0x0034)).
Proof.
  apply (proj1 (SwapBytes_distributes_over_bitwise
                  gcc_x86_64 ConstantEvaluation W4 0x1200 0x0034
                  ltac:(closed_range) ltac:(closed_range))).
Defined.

(** X4: the values [SwapBytes] leaves unchanged are exactly those whose
    bytes read the same in both directions. *)
Theorem SwapBytes_fixed_points p ctx w v :
  in_range (uint w) v ->
  (result (SwapBytes p ctx w v) = v
   <-> forall i : nat, (i < width_bytes w)%nat ->
         byte_at v (Z.of_nat i) = byte_at v (Z.of_nat (width_bytes w - 1 - i))).
Proof.
  intros Hv. unfold result. rewrite SwapBytes_result by exact Hv. split.
  - intros Hfix i Hi. rewrite <- Hfix at 1.
    apply byte_at_byteswap_intrinsic. exact Hi.
  - intros Hpal. apply (byte_at_inj (width_bytes w)).
    + apply byteswap_intrinsic_bound.
    + exact Hv.
    + intros i Hi. rewrite byte_at_byteswap_intrinsic by exact Hi.
      symmetry. apply Hpal. exact Hi.
Qed.

Lemma SwapBytes_fixed_points_witness :
  result (SwapBytes gcc_x86_64 RunTime W2 0x1234) = 0x1234
  <-> forall i : nat, (i < width_bytes W2)%nat ->
        byte_at 0x1234 (Z.of_nat i)
        = byte_at 0x1234 (Z.of_nat (width_bytes W2 - 1 - i)).
Proof.
  apply (SwapBytes_fixed_points gcc_x86_64 RunTime W2 0x1234).
  closed_range.
Defined.

(** ** SwapBytes and the codec *)

Lemma Z_to_little_endian_byteswap_intrinsic (n : nat) v :
  Z_to_little_endian (Z.of_nat n) 8 (byteswap_intrinsic (Z.of_nat n) v)
  = reverse (Z_to_little_endian (Z.of_nat n) 8 v).
Proof.
  unfold byteswap_intrinsic. apply Z_to_little_endian_to_Z.
  - rewrite length_reverse, Z_to_little_endian_length. reflexivity.
  - lia.
  - apply reversed_bytes_Forall.
Qed.

Lemma object_representation_byteswap_intrinsic e (n : nat) v :
  object_representation e (Z.of_nat n) (byteswap_intrinsic (Z.of_nat n) v)
  = reverse (object_representation e (Z.of_nat n) v).
Proof.
  destruct e; unfold object_representation;
    rewrite Z_to_little_endian_byteswap_intrinsic; reflexivity.
Qed.

Lemma value_representation_reverse e bs :
  Forall is_byte bs ->
  value_representation e (reverse bs)
  = byteswap_intrinsic (Z.of_nat (length bs)) (value_representation e bs).
Proof.
  intros Hbs. unfold byteswap_intrinsic.
  destruct e; unfold value_representation.
  - rewrite Z_to_little_endian_to_Z; [reflexivity | reflexivity | lia | assumption].
  - rewrite reverse_involutive.
    rewrite <- (length_reverse bs).
    rewrite Z_to_little_endian_to_Z;
      [| reflexivity | lia | apply Forall_reverse; assumption].
    rewrite reverse_involutive. reflexivity.
Qed.

(** X5: the bytes [ToLittleEndian] gives for a byte-swapped value are the
    bytes it gives for the value, in reverse order; this holds on either
    branch and for either host byte order. *)
Theorem ToLittleEndian_SwapBytes p ctx ctx' w v :
  in_range (uint w) v ->
  result (ToLittleEndian p ctx w (result (SwapBytes p ctx' w v)))
  = reverse (result (ToLittleEndian p ctx w v)).
Proof.
  intros Hv. unfold result.
  rewrite SwapBytes_result by exact Hv.
  rewrite !ToLittleEndian_result
    by (exact Hv || apply in_range_uint, byteswap_intrinsic_bound).
  apply object_representation_byteswap_intrinsic.
Qed.

Lemma ToLittleEndian_SwapBytes_witness :
  result (ToLittleEndian gcc_x86_64 RunTime W4
            (result (SwapBytes gcc_x86_64 ConstantEvaluation W4 0x01020304)))
  = reverse (result (ToLittleEndian gcc_x86_64 RunTime W4 0x01020304)).
Proof.
  apply (ToLittleEndian_SwapBytes gcc_x86_64 RunTime ConstantEvaluation
           W4 0x01020304).
  closed_range.
Defined.

(** X6: [FromLittleEndian] of a reversed byte array is the byte swap of
    [FromLittleEndian] of the array, on either branch and for either host
    byte order. *)
Theorem FromLittleEndian_reverse p ctx ctx' w bytes :
  length bytes = width_bytes w -> Forall is_byte bytes ->
  result (FromLittleEndian p ctx w (reverse bytes))
  = result (SwapBytes p ctx' w (result (FromLittleEndian p ctx w bytes))).
Proof.
  intros Hlen Hbytes. unfold result.
  rewrite (FromLittleEndian_result p ctx w bytes) by assumption.
  rewrite FromLittleEndian_result
    by (rewrite ?length_reverse; try apply Forall_reverse; assumption).
  rewrite SwapBytes_result
    by (apply in_range_uint; rewrite <- Hlen;
        apply value_representation_bound; assumption).
  rewrite <- Hlen. apply value_representation_reverse. assumption.
Qed.

Lemma FromLittleEndian_reverse_witness :
  result (FromLittleEndian gcc_s390x RunTime W4 (reverse [1; 2; 3; 4]))
  = result (SwapBytes gcc_s390x RunTime W4
              (result (FromLittleEndian gcc_s390x RunTime W4 [1; 2; 3; 4]))).
Proof.
  apply (FromLittleEndian_reverse gcc_s390x RunTime RunTime W4 [1; 2; 3; 4]);
    [reflexivity | closed_bytes].
Defined.

(** X7: on a big-endian host the [memcpy] branches implement the
    big-endian codec: [ToLittleEndian] writes the bytes of the
    byte-by-byte branch in reverse order, and [FromLittleEndian] reads the
    array as the byte-by-byte branch reads its reversal. *)
Theorem memcpy_branches_big_endian p w :
  host_byte_order p = BigEndian ->
  (forall v,
      in_range (uint w) v ->
      result (ToLittleEndian_memcpy_branch p w v)
      = reverse (result (ToLittleEndian_constexpr_branch p w v)))
  /\ (forall bytes,
         length bytes = width_bytes w -> Forall is_byte bytes ->
         result (FromLittleEndian_memcpy_branch p w bytes)
         = result (FromLittleEndian_constexpr_branch p w (reverse bytes))).
Proof.
  intros Hhost. unfold result. split.
  - intros v Hv.
    rewrite ToLittleEndian_constexpr_branch_result,
      ToLittleEndian_memcpy_branch_result, Hhost by exact Hv.
    reflexivity.
  - intros bytes Hlen Hbytes.
    rewrite FromLittleEndian_memcpy_branch_result, Hhost by assumption.
    rewrite FromLittleEndian_constexpr_branch_result
      by (rewrite ?length_reverse; try apply Forall_reverse; assumption).
    reflexivity.
Qed.

Lemma memcpy_branches_big_endian_witness :
  result (ToLittleEndian_memcpy_branch gcc_s390x W4 0x01020304)
  = reverse (result (ToLittleEndian_constexpr_branch gcc_s390x W4 0x01020304))
  /\ result (FromLittleEndian_memcpy_branch gcc_s390x W2 [1; 2])
     = result (FromLittleEndian_constexpr_branch gcc_s390x W2 (reverse [1; 2])).
Proof.
  split.
  - apply (proj1 (memcpy_branches_big_endian gcc_s390x W4 eq_refl)).
    closed_range.
  - apply (proj2 (memcpy_branches_big_endian gcc_s390x W2 eq_refl));
      [reflexivity | closed_bytes].
Defined.

(** ** The sign of a swapped signed value *)

Lemma testbit_top n u :
  0 < n -> 0 <= u < 2 ^ n ->
  (Z.testbit u (n - 1) = true <-> 2 ^ (n - 1) <= u).
Proof.
  intros Hn Hu.
  assert (2 ^ n = 2 * 2 ^ (n - 1)) as Hpow.
  { rewrite <- Z.pow_succ_r by lia. f_equal. lia. }
  assert (0 < 2 ^ (n - 1)) as Hpos by (apply Z.pow_pos_nonneg; lia).
  rewrite Z.testbit_true by lia.
  destruct (Z.lt_ge_cases u (2 ^ (n - 1))) as [Hlt | Hge].
  - rewrite Z.div_small by lia. split; [discriminate | lia].
  - replace u with ((u - 2 ^ (n - 1)) + 1 * 2 ^ (n - 1)) at 1 by lia.
    rewrite Z.div_add, Z.div_small by lia. split; [intros _; lia | reflexivity].
Qed.

(** X8: the swap of a signed value is negative exactly when bit 7 of the
    value, the top bit of its least-significant byte, is set. *)
Theorem SwapBytes_signed_negative p ctx w v :
  in_range (sint w) v ->
  (result (SwapBytes_signed p ctx w v) < 0 <-> Z.testbit v 7 = true).
Proof.
  intros Hv. unfold result. rewrite SwapBytes_signed_result.
  pose proof (byteswap_intrinsic_bound (width_bytes w) (convert (uint w) v))
    as Hu.
  pose proof (bit_width_pos w) as Hpos.
  pose proof (width_bytes_ge_1 w) as Hw.
  set (u := byteswap_intrinsic (Z.of_nat (width_bytes w)) (convert (uint w) v))
    in *.
  rewrite convert_sint_reinterpret by exact Hu.
  pose proof (testbit_top (8 * Z.of_nat (width_bytes w)) u Hpos Hu) as Htop.
  assert (Z.testbit u (8 * Z.of_nat (width_bytes w) - 1) = Z.testbit v 7) as Hbit.
  { assert (byte_at u (Z.of_nat (width_bytes w - 1)) = byte_at v 0) as Hbyte.
    { unfold u. rewrite byte_at_byteswap_intrinsic by lia.
      replace (width_bytes w - 1 - (width_bytes w - 1))%nat with 0%nat by lia.
      apply (byte_at_convert false w v 0). lia. }
    assert (forall x i, 0 <= i ->
              Z.testbit (byte_at x i) 7 = Z.testbit x (8 * i + 7)) as Hb7
      by (intros x i Hi; rewrite testbit_byte_at by lia; reflexivity).
    replace (8 * Z.of_nat (width_bytes w) - 1)
      with (8 * Z.of_nat (width_bytes w - 1) + 7) by lia.
    rewrite <- Hb7, Hbyte, Hb7 by lia. reflexivity. }
  rewrite <- Hbit, Htop. unfold reinterpret_as_signed.
  destruct (Z.ltb_spec u (2 ^ (8 * Z.of_nat (width_bytes w) - 1))); lia.
Qed.

Lemma SwapBytes_signed_negative_witness :
  result (SwapBytes_signed gcc_x86_64 RunTime W2 0x0080) < 0
  <-> Z.testbit 0x0080 7 = true.
Proof.
  apply (SwapBytes_signed_negative gcc_x86_64 RunTime W2 0x0080).
  closed_range.
Defined.

(** ** The shifts of the codec loops *)




(** ** Widening and narrowing *)

Lemma little_endian_to_Z_zeros k : little_endian_to_Z 8 (replicate k 0) = 0.
Proof.
  induction k as [|k IH]; cbn [replicate little_endian_to_Z]; [reflexivity|].
  rewrite IH. reflexivity.
Qed.

Lemma little_endian_to_Z_app_zeros bs k :
  little_endian_to_Z 8 (bs ++ replicate k 0) = little_endian_to_Z 8 bs.
Proof.
  induction bs as [|b bs IH]; cbn [app little_endian_to_Z].
  - apply little_endian_to_Z_zeros.
  - rewrite IH. reflexivity.
Qed.

(** X10: where the bytes are read least-significant first (constant
    evaluation, or a little-endian host), padding a byte array with zero
    bytes at the end and reading it at the wider type gives the value read
    at the narrower type. *)
Theorem FromLittleEndian_zero_extension p ctx w w' bytes :
  cxx17_is_constant_evaluated p ctx = true
  \/ host_byte_order p = LittleEndian ->
  (width_bytes w <= width_bytes w')%nat ->
  length bytes = width_bytes w -> Forall is_byte bytes ->
  result (FromLittleEndian p ctx w'
            (bytes ++ replicate (width_bytes w' - width_bytes w) 0))
  = result (FromLittleEndian p ctx w bytes).
Proof.
  intros Hle Hw Hlen Hbytes. apply effective_byte_order_little in Hle.
  unfold result. rewrite !FromLittleEndian_result, Hle; try assumption.
  - apply little_endian_to_Z_app_zeros.
  - rewrite length_app, length_replicate. lia.
  - apply Forall_app. split; [assumption|].
    apply Forall_replicate. unfold is_byte. lia.
Qed.

Lemma FromLittleEndian_zero_extension_witness :
  result (FromLittleEndian gcc_x86_64 RunTime W4
            ([0x34; 0x12] ++ replicate (width_bytes W4 - width_bytes W2) 0))
  = result (FromLittleEndian gcc_x86_64 RunTime W2 [0x34; 0x12]).
Proof.
  apply (FromLittleEndian_zero_extension gcc_x86_64 RunTime W2 W4
           [0x34; 0x12] (or_intror eq_refl));
    [cbn; lia | reflexivity | closed_bytes].
Defined.

(** X11: where the bytes are written least-significant first, the bytes
    of a value converted to a narrower unsigned type are the first bytes
    of the value at the wider type. *)
Theorem ToLittleEndian_narrowing p ctx w w' v :
  cxx17_is_constant_evaluated p ctx = true
  \/ host_byte_order p = LittleEndian ->
  (width_bytes w <= width_bytes w')%nat ->
  in_range (uint w') v ->
  result (ToLittleEndian p ctx w (convert (uint w) v))
  = take (width_bytes w) (result (ToLittleEndian p ctx w' v)).
Proof.
  intros Hle Hw Hv. apply effective_byte_order_little in Hle.
  unfold result.
  rewrite !ToLittleEndian_result, Hle
    by (exact Hv || apply convert_is_in_range, bit_width_pos).
  unfold object_representation. rewrite !Z_to_little_endian_bytes.
  rewrite <- fmap_take, take_seq, Nat.min_l by exact Hw.
  apply list_fmap_ext. intros k i Hi. apply lookup_seq in Hi as [-> Hi].
  apply (byte_at_convert false w v). exact Hi.
Qed.

Lemma ToLittleEndian_narrowing_witness :
  result (ToLittleEndian gcc_x86_64 ConstantEvaluation W2
            (convert (uint W2) 0x01020304))
  = take (width_bytes W2)
      (result (ToLittleEndian gcc_x86_64 ConstantEvaluation W4 0x01020304)).
Proof.
  apply (ToLittleEndian_narrowing gcc_x86_64 ConstantEvaluation W2 W4
           0x01020304 (or_introl eq_refl)); [cbn; lia | closed_range].
Defined.
